(** * Sonar (cli-coding-agent): the streaming-response pipeline

    A shallow embedding of the three stateful parts of the client:
    - [Api]: the line-buffering parse loop of [APIClient.chatStream]
      (cli-coding-agent/src/core/api.ts);
    - [Agent]: the conversation log of [CodingAgent] with its
      push / commit / rollback discipline (cli-coding-agent/src/core/agent.ts);
    - [Extractor] and [Handler]: the incremental [CodeExtractor], the turn
      driver [sendMessage] and the error branch of [prompt]
      (cli-coding-agent/src/Handler.ts).

    JavaScript strings are modelled as lists of code units restricted to the
    range 0..255 ([list ascii]); [length], [slice], [indexOf], [split] and
    [trim] are the JavaScript ones on that alphabet. *)

From Stdlib Require Import String.
From Stdlib Require Import List Ascii Bool Arith ZArith Lia.
From Stdlib.Strings Require Import Byte.
From Stdlib Require Import DecimalString.
Import ListNotations.

Set Implicit Arguments.

(** ** JavaScript strings and errors *)

Module Js.

Definition str := list ascii.

Definition lit (s : String.string) : str := String.list_ascii_of_string s.
Arguments lit s%_string.

Definition nl : ascii := "010"%char.
Definition dq : ascii := "034"%char.

Definition str_eqb (a b : str) : bool :=
  if list_eq_dec ascii_dec a b then true else false.

(** A literal in which every apostrophe stands for a double quote. *)
Definition quoted (s : String.string) : str :=
  map (fun c => if Ascii.eqb c "'"%char then dq else c) (lit s).
Arguments quoted s%_string.

(** A string is truthy when it is not empty. *)
Definition nonempty (s : str) : bool :=
  match s with [] => false | _ :: _ => true end.

(** [s.startsWith(p)] *)
Fixpoint startsWith (p s : str) : bool :=
  match p, s with
  | [], _ => true
  | _ :: _, [] => false
  | a :: p', b :: s' => Ascii.eqb a b && startsWith p' s'
  end.

(** [s.indexOf(p)]: the first offset at which [p] occurs; [None] is -1. *)
Fixpoint indexOf (p s : str) : option nat :=
  if startsWith p s then Some 0
  else match s with
       | [] => None
       | _ :: s' => option_map S (indexOf p s')
       end.

(** [s.includes(p)] *)
Definition includes (p s : str) : bool :=
  match indexOf p s with Some _ => true | None => false end.

(** [s.slice(-n)] for a positive literal [n]: the last [n] code units. *)
Definition slice_last (n : nat) (s : str) : str := skipn (length s - n) s.

(** [s.slice(0, -n)]: everything but the last [n] code units. *)
Definition slice_but_last (n : nat) (s : str) : str := firstn (length s - n) s.

(** [s.split(sep)] for a separator of one code unit: the segments between the
    separators, never an empty array. *)
Fixpoint split (sep : ascii) (s : str) : list str :=
  match s with
  | [] => [[]]
  | c :: s' =>
      if Ascii.eqb c sep then [] :: split sep s'
      else match split sep s' with
           | seg :: segs => (c :: seg) :: segs
           | [] => [[c]]
           end
  end.

(** White space and line terminators removed by [trim], on the 0..255 range:
    TAB, LF, VT, FF, CR, SPACE and NBSP. *)
Definition is_space (c : ascii) : bool :=
  let n := nat_of_ascii c in
  ((9 <=? n) && (n <=? 13)) || (n =? 32) || (n =? 160).

Fixpoint trimStart (s : str) : str :=
  match s with
  | c :: s' => if is_space c then trimStart s' else s
  | [] => []
  end.

Definition trimEnd (s : str) : str := rev (trimStart (rev s)).

Definition trim (s : str) : str := trimEnd (trimStart s).

(** A thrown [Error] object, as far as callers inspect it: its [name] and its
    [message].  Everything thrown in this development is an instance of
    [Error]. *)
Record JsError := { name : str; message : str }.

(** [new Error(msg)] *)
Definition Error (msg : str) : JsError := {| name := lit "Error"; message := msg |}.

End Js.

Import Js.

(** ** The transport client: [APIClient.chatStream] *)

Module Api.

(** What [chatStream] uses of the JavaScript runtime: the values [JSON.parse]
    returns with property reads, truthiness and string conversion on them,
    [JSON.stringify], the message of the [TypeError] raised by a property read
    on [null], the message of the [AbortError] with which an aborted [fetch]
    or [read] rejects, and the streaming [TextDecoder], which consumes its
    input byte by byte and keeps the bytes of an unfinished sequence in its
    state. *)
Class Runtime := {
  value : Type;
  undefined : value;
  is_nullish : value -> bool;
  truthy : value -> bool;
  get : value -> str -> value;
  ToString : value -> str;
  JSON_parse : str -> option value;
  JSON_stringify : value -> str;
  TypeError_message : str;
  AbortError_message : str;
  decoder : Type;
  decoder_new : decoder;
  decode_byte : decoder -> byte -> decoder * str
}.

Section ChatStream.

Context {R : Runtime}.

Definition TypeError : JsError :=
  {| name := lit "TypeError"; message := TypeError_message |}.

(** The rejection of a [fetch] or [read] whose signal was aborted, by
    [abort()] or by the timer armed at the start of the request. *)
Definition AbortError : JsError :=
  {| name := lit "AbortError"; message := AbortError_message |}.

(** [decoder.decode(value, { stream: true })] *)
Fixpoint decode (d : decoder) (bytes : list byte) : decoder * str :=
  match bytes with
  | [] => (d, [])
  | b :: bs =>
      let '(d1, t1) := decode_byte d b in
      let '(d2, t2) := decode d1 bs in
      (d2, t1 ++ t2)
  end.

(** [v?.[key]] *)
Definition get_opt (v : value) (key : str) : value :=
  if is_nullish v then undefined else get v key.

(** [parsed.choices?.[0]?.delta?.content], for [parsed] not nullish. *)
Definition delta_content (parsed : value) : value :=
  get_opt (get_opt (get_opt (get parsed (lit "choices")) (lit "0")) (lit "delta"))
          (lit "content").

(** [new Error(parsed.error.message || JSON.stringify(parsed.error))] *)
Definition envelope_error (err : value) : JsError :=
  let m := get err (lit "message") in
  Error (if truthy m then ToString m else JSON_stringify err).

(** What the body of the [for (const line of lines)] loop does with one
    line. *)
Inductive LineStep :=
| Skip
| Yield (content : value)
| Return
| Throw (e : JsError).

(** The body of the loop over the complete lines of a read.  A [SyntaxError]
    of [JSON.parse] is caught and dropped; anything else thrown inside the
    [try] is thrown again. *)
Definition process_line (line : str) : LineStep :=
  let trimmed := trim line in
  if negb (nonempty trimmed) then Skip
  else if startsWith (lit "data: ") trimmed then
    let data := skipn 6 trimmed in
    if str_eqb data (lit "[DONE]") then Return
    else
      match JSON_parse data with
      | None => Skip
      | Some parsed =>
          if is_nullish parsed then Throw TypeError
          else if truthy (get parsed (lit "error"))
          then Throw (envelope_error (get parsed (lit "error")))
          else
            let content := delta_content parsed in
            if truthy content then Yield content else Skip
      end
  else if startsWith (lit "{") trimmed then
    match JSON_parse trimmed with
    | None => Skip
    | Some parsed =>
        if is_nullish parsed then Throw TypeError
        else if truthy (get parsed (lit "error"))
        then Throw (envelope_error (get parsed (lit "error")))
        else Skip
    end
  else Skip.

(** The text a line hands to [JSON.parse], if it does: what follows the
    [data: ] prefix unless that is the sentinel, or the whole of a line that
    starts with a brace. *)
Definition payload_of (line : str) : option str :=
  let trimmed := trim line in
  if negb (nonempty trimmed) then None
  else if startsWith (lit "data: ") trimmed then
    if str_eqb (skipn 6 trimmed) (lit "[DONE]") then None
    else Some (skipn 6 trimmed)
  else if startsWith (lit "{") trimmed then Some trimmed
  else None.

(** How the generator ends: it returns (the reader is done, or the sentinel
    line was read) or it throws. *)
Inductive Ending :=
| Finished
| Failed (e : JsError).

(** The deltas yielded while going through [lines], and the ending when the
    loop leaves the generator. *)
Fixpoint process_lines (lines : list str) : list value * option Ending :=
  match lines with
  | [] => ([], None)
  | line :: rest =>
      match process_line line with
      | Skip => process_lines rest
      | Yield content =>
          let '(ys, e) := process_lines rest in (content :: ys, e)
      | Return => ([], Some Finished)
      | Throw e => ([], Some (Failed e))
      end
  end.

(** The handling of what is left in [buffer] when the reader is done: no
    check for an error envelope, and every exception is swallowed. *)
Definition process_rest (buffer : str) : list value :=
  let trimmed := trim buffer in
  if nonempty trimmed then
    if startsWith (lit "data: ") trimmed && negb (str_eqb (skipn 6 trimmed) (lit "[DONE]"))
    then
      match JSON_parse (skipn 6 trimmed) with
      | None => []
      | Some parsed =>
          if is_nullish parsed then []
          else
            let content := delta_content parsed in
            if truthy content then [content] else []
      end
    else []
  else [].

(** One [await reader.read()]: a chunk of bytes, or a rejection.  The end of
    the list of reads is [done]. *)
Inductive Read :=
| Chunk (bytes : list byte)
| Rejects (e : JsError).

(** The [while (true)] loop and what follows it, from a given [buffer] and
    decoder state. *)
Fixpoint read_loop (buffer : str) (d : decoder) (reads : list Read)
  : list value * Ending :=
  match reads with
  | [] => (process_rest buffer, Finished)
  | Rejects e :: _ => ([], Failed e)
  | Chunk bytes :: rest =>
      let '(d', text) := decode d bytes in
      let lines := split nl (buffer ++ text) in
      match process_lines (removelast lines) with
      | (ys, Some e) => (ys, e)
      | (ys, None) =>
          let '(ys', e) := read_loop (last lines []) d' rest in
          (ys ++ ys', e)
      end
  end.

(** The response of the chat endpoint as [chatStream] looks at it. *)
Record Response := {
  ok : bool;
  status : nat;
  text : str;
  body : option (list Read)
}.

(** [await fetch(...)]: a response, or a rejection (network failure, or the
    signal aborted before the response arrived). *)
Inductive Fetch :=
| Responds (r : Response)
| FetchRejects (e : JsError).

Definition decimal (n : nat) : str :=
  lit (NilEmpty.string_of_uint (Nat.to_uint n)).

(** The error thrown for a response that is not [ok]. *)
Definition api_error (r : Response) : JsError :=
  Error (lit "API Error (" ++ decimal (status r) ++ lit "): " ++ text r).

(** [chatStream]: the deltas yielded, in order, and how the generator ends. *)
Definition chatStream (f : Fetch) : list value * Ending :=
  match f with
  | FetchRejects e => ([], Failed e)
  | Responds r =>
      if negb (ok r) then ([], Failed (api_error r))
      else match body r with
           | None => ([], Failed (Error (lit "No response body")))
           | Some reads => read_loop [] decoder_new reads
           end
  end.

(** A response with status 200 whose body delivers [reads]. *)
Definition streaming (reads : list Read) : Fetch :=
  Responds {| ok := true; status := 200; text := []; body := Some reads |}.

(** The text in which each of [lines] is followed by a newline. *)
Definition join_lines (lines : list str) : str :=
  concat (map (fun line => line ++ [nl]) lines).

(** What a response body does when its reads all succeed, told from the
    decoded text alone: the loop over the lines that end in a newline, then
    the handling of what follows the last newline. *)
Definition stream_of_text (text : str) : list value * Ending :=
  match process_lines (removelast (split nl text)) with
  | (ys, Some e) => (ys, e)
  | (ys, None) => (ys ++ process_rest (last (split nl text) []), Finished)
  end.

(** The text a consumer accumulates from the deltas ([fullResponse += chunk]). *)
Definition deltas_text (ys : list value) : str := concat (map ToString ys).

End ChatStream.

End Api.

(** ** A small runtime for running [chatStream] on concrete payloads

    JSON values with integer numbers, and a parser for the JSON texts built
    from objects, arrays, strings with the one-letter escapes, integers and
    the three literals.  Fractions, exponents and [\u] escapes are not read
    (the parser rejects them); the decoder is the UTF-8 decoder on the ASCII
    range.  The theorems about [chatStream] hold for every [Runtime]; this
    one is used where a payload is run. *)

Module Json.

#[local] Unset Elimination Schemes.

Inductive json :=
| JUndefined
| JNull
| JBool (b : bool)
| JNumber (n : Z)
| JString (s : str)
| JArray (elems : list json)
| JObject (members : list (str * json)).

#[local] Set Elimination Schemes.

Definition is_nullish (v : json) : bool :=
  match v with JUndefined | JNull => true | _ => false end.

Definition truthy (v : json) : bool :=
  match v with
  | JUndefined | JNull => false
  | JBool b => b
  | JNumber n => negb (Z.eqb n 0)
  | JString s => nonempty s
  | JArray _ | JObject _ => true
  end.

(** The own property [key] of an object literal: the last member of that name
    wins. *)
Fixpoint member (key : str) (ms : list (str * json)) : json :=
  match ms with
  | [] => JUndefined
  | (k, v) :: ms' =>
      match member key ms' with
      | JUndefined => if str_eqb k key then v else JUndefined
      | found => found
      end
  end.

Definition is_digit (c : ascii) : bool :=
  let n := nat_of_ascii c in (48 <=? n) && (n <=? 57).

(** The array index a property key denotes, when it is a canonical one. *)
Definition index_of_key (key : str) : option nat :=
  match key with
  | [] => None
  | [c] => if is_digit c then Some (nat_of_ascii c - 48) else None
  | c :: _ =>
      if is_digit c && negb (Ascii.eqb c "0"%char) && forallb is_digit key
      then Some (fold_left (fun acc d => 10 * acc + (nat_of_ascii d - 48)) key 0)
      else None
  end.

Definition get (v : json) (key : str) : json :=
  match v with
  | JObject ms => member key ms
  | JArray elems =>
      match index_of_key key with
      | Some i => nth i elems JUndefined
      | None => if str_eqb key (lit "length")
                then JNumber (Z.of_nat (length elems)) else JUndefined
      end
  | JString s =>
      match index_of_key key with
      | Some i => match nth_error s i with
                  | Some c => JString [c]
                  | None => JUndefined
                  end
      | None => if str_eqb key (lit "length")
                then JNumber (Z.of_nat (length s)) else JUndefined
      end
  | _ => JUndefined
  end.

Definition show_Z (n : Z) : str :=
  lit (NilEmpty.string_of_int (Z.to_int n)).

Definition join_with (sep : str) (parts : list str) : str :=
  match parts with
  | [] => []
  | p :: ps => p ++ concat (map (fun q => sep ++ q) ps)
  end.

Fixpoint ToString (v : json) : str :=
  match v with
  | JUndefined => lit "undefined"
  | JNull => lit "null"
  | JBool true => lit "true"
  | JBool false => lit "false"
  | JNumber n => show_Z n
  | JString s => s
  | JArray elems =>
      join_with (lit ",")
        (map (fun e => if is_nullish e then [] else ToString e) elems)
  | JObject _ => lit "[object Object]"
  end.

Definition quote_char (c : ascii) : str :=
  if Ascii.eqb c dq then [ "\"%char; dq ]
  else if Ascii.eqb c "\"%char then lit "\\"
  else if Ascii.eqb c nl then lit "\n"
  else if Ascii.eqb c "013"%char then lit "\r"
  else if Ascii.eqb c "009"%char then lit "\t"
  else if Ascii.eqb c "008"%char then lit "\b"
  else if Ascii.eqb c "012"%char then lit "\f"
  else [c].

Definition quote (s : str) : str := dq :: concat (map quote_char s) ++ [dq].

Fixpoint JSON_stringify (v : json) : str :=
  match v with
  | JUndefined => lit "undefined"
  | JNull => lit "null"
  | JBool true => lit "true"
  | JBool false => lit "false"
  | JNumber n => show_Z n
  | JString s => quote s
  | JArray elems =>
      lit "[" ++ join_with (lit ",")
        (map (fun e => if is_nullish e then lit "null" else JSON_stringify e) elems)
      ++ lit "]"
  | JObject ms =>
      lit "{" ++ join_with (lit ",")
        (map (fun kv => match kv with
                        | (k, m) => quote k ++ lit ":" ++ JSON_stringify m
                        end) ms)
      ++ lit "}"
  end.

(** JSON white space: space, TAB, LF, CR. *)
Definition is_ws (c : ascii) : bool :=
  let n := nat_of_ascii c in (n =? 32) || (n =? 9) || (n =? 10) || (n =? 13).

Fixpoint skip_ws (s : str) : str :=
  match s with
  | c :: s' => if is_ws c then skip_ws s' else s
  | [] => []
  end.

Definition unescape (c : ascii) : option ascii :=
  if Ascii.eqb c dq then Some dq
  else if Ascii.eqb c "\"%char then Some "\"%char
  else if Ascii.eqb c "/"%char then Some "/"%char
  else if Ascii.eqb c "b"%char then Some "008"%char
  else if Ascii.eqb c "f"%char then Some "012"%char
  else if Ascii.eqb c "n"%char then Some nl
  else if Ascii.eqb c "r"%char then Some "013"%char
  else if Ascii.eqb c "t"%char then Some "009"%char
  else None.

(** The characters of a string literal after its opening quote, and the text
    after its closing quote. *)
Fixpoint parse_chars (s : str) : option (str * str) :=
  match s with
  | [] => None
  | c :: s' =>
      if Ascii.eqb c dq then Some ([], s')
      else if Ascii.eqb c "\"%char then
        match s' with
        | e :: s'' =>
            match unescape e, parse_chars s'' with
            | Some u, Some (cs, r) => Some (u :: cs, r)
            | _, _ => None
            end
        | [] => None
        end
      else if nat_of_ascii c <? 32 then None
      else match parse_chars s' with
           | Some (cs, r) => Some (c :: cs, r)
           | None => None
           end
  end.

Fixpoint span_digits (s : str) : str * str :=
  match s with
  | c :: s' => if is_digit c then let '(a, b) := span_digits s' in (c :: a, b) else ([], s)
  | [] => ([], [])
  end.

Definition digits_value (ds : str) : Z :=
  fold_left (fun acc d => (10 * acc + Z.of_nat (nat_of_ascii d - 48))%Z) ds 0%Z.

(** An integer literal: no leading zero, nothing after the digits that would
    continue a JSON number. *)
Definition parse_int (s : str) : option (Z * str) :=
  let '(neg, s1) := match s with
                    | c :: s' => if Ascii.eqb c "-"%char then (true, s') else (false, s)
                    | [] => (false, s)
                    end in
  let '(ds, r) := span_digits s1 in
  let continues := match r with
                   | c :: _ => Ascii.eqb c "."%char || Ascii.eqb c "e"%char || Ascii.eqb c "E"%char
                   | [] => false
                   end in
  match ds with
  | [] => None
  | d :: ds' =>
      if (Ascii.eqb d "0"%char && nonempty ds') || continues then None
      else Some (if neg then (- digits_value ds)%Z else digits_value ds, r)
  end.

Fixpoint parse_value (fuel : nat) (s : str) {struct fuel} : option (json * str) :=
  match fuel with
  | 0 => None
  | S fuel' =>
      let s := skip_ws s in
      if startsWith (lit "null") s then Some (JNull, skipn 4 s)
      else if startsWith (lit "true") s then Some (JBool true, skipn 4 s)
      else if startsWith (lit "false") s then Some (JBool false, skipn 5 s)
      else match s with
           | [] => None
           | c :: r =>
               if Ascii.eqb c dq then
                 match parse_chars r with
                 | Some (cs, r') => Some (JString cs, r')
                 | None => None
                 end
               else if Ascii.eqb c "["%char then
                 match skip_ws r with
                 | c' :: r' =>
                     if Ascii.eqb c' "]"%char then Some (JArray [], r')
                     else match parse_elems fuel' r with
                          | Some (es, r'') => Some (JArray es, r'')
                          | None => None
                          end
                 | [] => None
                 end
               else if Ascii.eqb c "{"%char then
                 match skip_ws r with
                 | c' :: r' =>
                     if Ascii.eqb c' "}"%char then Some (JObject [], r')
                     else match parse_members fuel' r with
                          | Some (ms, r'') => Some (JObject ms, r'')
                          | None => None
                          end
                 | [] => None
                 end
               else match parse_int s with
                    | Some (n, r') => Some (JNumber n, r')
                    | None => None
                    end
           end
  end
with parse_elems (fuel : nat) (s : str) {struct fuel} : option (list json * str) :=
  match fuel with
  | 0 => None
  | S fuel' =>
      match parse_value fuel' s with
      | Some (v, r) =>
          match skip_ws r with
          | c :: r' =>
              if Ascii.eqb c "]"%char then Some ([v], r')
              else if Ascii.eqb c ","%char then
                match parse_elems fuel' r' with
                | Some (vs, r'') => Some (v :: vs, r'')
                | None => None
                end
              else None
          | [] => None
          end
      | None => None
      end
  end
with parse_members (fuel : nat) (s : str) {struct fuel} : option (list (str * json) * str) :=
  match fuel with
  | 0 => None
  | S fuel' =>
      match skip_ws s with
      | q :: r0 =>
          if Ascii.eqb q dq then
            match parse_chars r0 with
            | Some (k, r1) =>
                match skip_ws r1 with
                | c :: r2 =>
                    if Ascii.eqb c ":"%char then
                      match parse_value fuel' r2 with
                      | Some (v, r3) =>
                          match skip_ws r3 with
                          | c' :: r4 =>
                              if Ascii.eqb c' "}"%char then Some ([(k, v)], r4)
                              else if Ascii.eqb c' ","%char then
                                match parse_members fuel' r4 with
                                | Some (ms, r5) => Some ((k, v) :: ms, r5)
                                | None => None
                                end
                              else None
                          | [] => None
                          end
                      | None => None
                      end
                    else None
                | [] => None
                end
            | None => None
            end
          else None
      | [] => None
      end
  end.

(** [JSON.parse]: one value, with nothing but white space after it; [None]
    is the [SyntaxError]. *)
Definition JSON_parse (s : str) : option json :=
  match parse_value (2 * length s + 2) s with
  | Some (v, r) => match skip_ws r with [] => Some v | _ :: _ => None end
  | None => None
  end.

(** The UTF-8 decoder on the ASCII range: one code unit per byte. *)
Definition decode_byte (d : unit) (b : byte) : unit * str := (d, [ascii_of_byte b]).

#[export] Instance runtime : Api.Runtime := {|
  Api.value := json;
  Api.undefined := JUndefined;
  Api.is_nullish := is_nullish;
  Api.truthy := truthy;
  Api.get := get;
  Api.ToString := ToString;
  Api.JSON_parse := JSON_parse;
  Api.JSON_stringify := JSON_stringify;
  Api.TypeError_message := lit "null is not an object";
  Api.AbortError_message := lit "The operation was aborted.";
  Api.decoder := unit;
  Api.decoder_new := tt;
  Api.decode_byte := decode_byte
|}.

(** The bytes of an ASCII text, as the network delivers them. *)
Definition bytes (s : str) : list byte := map byte_of_ascii s.

(** Three stream lines: a content delta, a line cut short, and an error
    envelope. *)
Definition hi : str := quoted "data: {'choices':[{'delta':{'content':'Hi'}}]}".
Definition noise : str := quoted "data: {'choices':[{'delta'".
Definition envelope : str := quoted "data: {'error':{'message':'boom'}}".

End Json.

(** ** Conversation state: [CodingAgent] *)

Module Agent.

Inductive Role := system | user | assistant.

Definition Role_eqb (a b : Role) : bool :=
  match a, b with
  | system, system | user, user | assistant, assistant => true
  | _, _ => false
  end.

(** A [Message] object.  [oid] is the identity of the JavaScript object: the
    history array holds references, and [indexOf] compares them by identity,
    not by [role] and [content]. *)
Record Message := { oid : nat; role : Role; content : str }.

Definition SYSTEM_PROMPT : str :=
  lit "You are Cody, a friendly and expert coding assistant.

## Your Personality:
- You're helpful, conversational, and knowledgeable
- You chat naturally when users want to talk
- You switch to coding mode when users need code
- You're concise but not robotic

## When to Code:
Only use the file format when users:
- Ask you to create, write, or generate files
- Ask you to build something
- Request code for a specific purpose
- Say " ++ dq :: lit "make" ++ dq :: lit ", " ++ dq :: lit "create" ++ dq :: lit ", "
  ++ dq :: lit "build" ++ dq :: lit ", " ++ dq :: lit "write code" ++ dq :: lit ", etc.

## When to Chat:
Just respond normally when users:
- Say hi, hello, or greet you
- Ask questions about concepts
- Want explanations or advice
- Are having a conversation

## File Creation Format:
When creating files, use this exact format:

```python:script.py
# code here
```

```typescript:src/utils/helper.ts
// code here
```

Format: ```language:path/to/filename.ext

## Coding Rules (when coding):
1. Write complete, functional code
2. Include error handling
3. Follow best practices
4. Create full project structures when needed
5. Be concise - code speaks louder than explanations

## Your Expertise:
- Full-stack web development
- System scripts and automation
- APIs, CLIs, games, data processing
- Any programming language or framework

You're a developer's companion - chat when they want to chat, code when they need code.".

(** The agent: the history array, the pending user message, and [fresh], the
    next unused object identity (the allocator of the JavaScript heap as far
    as [Message] objects are concerned). *)
Record CodingAgent := {
  conversationHistory : list Message;
  pendingUserMessage : option Message;
  fresh : nat
}.

(** [constructor]: the history starts as the single system message. *)
Definition new : CodingAgent :=
  {| conversationHistory := [ {| oid := 0; role := system; content := SYSTEM_PROMPT |} ];
     pendingUserMessage := None;
     fresh := 1 |}.

(** [this.conversationHistory.push(m)] *)
Definition push (m : Message) (h : list Message) : list Message := h ++ [m].

(** [this.conversationHistory.pop()] *)
Definition pop (h : list Message) : list Message := removelast h.

(** [this.conversationHistory.indexOf(m)]: strict equality on objects is
    identity; [None] is -1. *)
Fixpoint indexOf (m : Message) (h : list Message) : option nat :=
  match h with
  | [] => None
  | x :: h' => if oid x =? oid m then Some 0 else option_map S (indexOf m h')
  end.

(** [this.conversationHistory.splice(idx, 1)] *)
Definition splice1 (idx : nat) (h : list Message) : list Message :=
  firstn idx h ++ skipn (S idx) h.

(** How the stream consumed by a turn ends: the transport sequence finishes,
    the transport throws (transport error, protocol error, timeout or
    cancellation), or the consumer closes the generator after a yield. *)
Inductive StreamEnd :=
| Completed
| Threw (e : JsError)
| Closed.

(** [send]: the awaited [client.chat] either returns the reply or throws. *)
Definition send (ag : CodingAgent) (userMessage : str) (res : JsError + str)
  : CodingAgent * (JsError + str) :=
  let userMsg := {| oid := fresh ag; role := user; content := userMessage |} in
  let h := push userMsg (conversationHistory ag) in
  match res with
  | inr response =>
      ({| conversationHistory :=
            push {| oid := S (fresh ag); role := assistant; content := response |} h;
          pendingUserMessage := pendingUserMessage ag;
          fresh := S (S (fresh ag)) |}, inr response)
  | inl error =>
      ({| conversationHistory := pop h;
          pendingUserMessage := pendingUserMessage ag;
          fresh := S (fresh ag) |}, inl error)
  end.

(** The local variables of one running [sendStream] generator. *)
Record Turn := { userMsg : Message; fullResponse : str; success : bool }.

(** [sendStream], up to the [try]: the user message is created, recorded as
    pending and pushed. *)
Definition sendStream_begin (ag : CodingAgent) (userMessage : str)
  : CodingAgent * Turn :=
  let m := {| oid := fresh ag; role := user; content := userMessage |} in
  ({| conversationHistory := push m (conversationHistory ag);
      pendingUserMessage := Some m;
      fresh := S (fresh ag) |},
   {| userMsg := m; fullResponse := []; success := false |}).

(** One iteration of the [for await] loop: accumulate, then yield. *)
Definition sendStream_chunk (t : Turn) (chunk : str) : Turn * str :=
  ({| userMsg := userMsg t; fullResponse := fullResponse t ++ chunk;
      success := success t |}, chunk).

Fixpoint sendStream_loop (t : Turn) (chunks : list str) : Turn * list str :=
  match chunks with
  | [] => (t, [])
  | c :: cs =>
      let '(t1, y) := sendStream_chunk t c in
      let '(t2, ys) := sendStream_loop t1 cs in
      (t2, y :: ys)
  end.

(** [success = true], reached only when the loop ends normally. *)
Definition sendStream_end (t : Turn) (fin : StreamEnd) : Turn :=
  match fin with
  | Completed => {| userMsg := userMsg t; fullResponse := fullResponse t; success := true |}
  | Threw _ | Closed => t
  end.

(** The [finally] block. *)
Definition sendStream_finally (ag : CodingAgent) (t : Turn) : CodingAgent :=
  if success t && nonempty (fullResponse t) then
    {| conversationHistory :=
         push {| oid := fresh ag; role := assistant; content := fullResponse t |}
              (conversationHistory ag);
       pendingUserMessage := None;
       fresh := S (fresh ag) |}
  else if negb (success t) then
    {| conversationHistory :=
         match indexOf (userMsg t) (conversationHistory ag) with
         | Some idx => splice1 idx (conversationHistory ag)
         | None => conversationHistory ag
         end;
       pendingUserMessage := None;
       fresh := fresh ag |}
  else
    {| conversationHistory := conversationHistory ag;
       pendingUserMessage := None;
       fresh := fresh ag |}.

(** What a caller observes of a whole turn. *)
Record StreamResult := {
  agent_after : CodingAgent;
  yielded : list str;
  thrown : option JsError
}.

(** [sendStream] driven to its end: [chunks] are the deltas the transport
    delivers before the stream ends as [fin] says. *)
Definition sendStream (ag : CodingAgent) (userMessage : str)
                      (chunks : list str) (fin : StreamEnd) : StreamResult :=
  let '(ag1, t0) := sendStream_begin ag userMessage in
  let '(t1, ys) := sendStream_loop t0 chunks in
  {| agent_after := sendStream_finally ag1 (sendStream_end t1 fin);
     yielded := ys;
     thrown := match fin with Threw e => Some e | _ => None end |}.

(** [clearHistory] allocates a new array holding a new system message. *)
Definition clearHistory (ag : CodingAgent) : CodingAgent :=
  {| conversationHistory := [ {| oid := fresh ag; role := system; content := SYSTEM_PROMPT |} ];
     pendingUserMessage := None;
     fresh := S (fresh ag) |}.

(** [updateSystemPrompt] assigns the [content] field of element 0 in place. *)
Definition updateSystemPrompt (ag : CodingAgent) (addition : str) : CodingAgent :=
  match conversationHistory ag with
  | m :: rest =>
      if Role_eqb (role m) system then
        {| conversationHistory :=
             {| oid := oid m; role := role m;
                content := SYSTEM_PROMPT ++ [nl; nl] ++ addition |}
             :: rest;
           pendingUserMessage := pendingUserMessage ag;
           fresh := fresh ag |}
      else ag
  | [] => ag
  end.

(** The operations a caller applies to an agent, each with what the remote
    end answers: the reply or error of [chat], the deltas and ending of the
    stream. *)
Inductive Op :=
| OpSend (userMessage : str) (res : JsError + str)
| OpSendStream (userMessage : str) (chunks : list str) (fin : StreamEnd)
| OpClearHistory
| OpUpdateSystemPrompt (addition : str).

Definition step (ag : CodingAgent) (op : Op) : CodingAgent :=
  match op with
  | OpSend userMessage res => fst (send ag userMessage res)
  | OpSendStream userMessage chunks fin => agent_after (sendStream ag userMessage chunks fin)
  | OpClearHistory => clearHistory ag
  | OpUpdateSystemPrompt addition => updateSystemPrompt ag addition
  end.

(** The agent after construction and a sequence of operations. *)
Definition run (ops : list Op) : CodingAgent := fold_left step ops new.

(** Every message in the history was allocated before [fresh]. *)
Definition allocated (ag : CodingAgent) : Prop :=
  Forall (fun m => oid m < fresh ag) (conversationHistory ag).

(** [getLastResponse]: the content of the last assistant message, or the
    empty string. *)
Definition getLastResponse (ag : CodingAgent) : str :=
  match find (fun m => Role_eqb (role m) assistant) (rev (conversationHistory ag)) with
  | Some lastAssistant => content lastAssistant
  | None => []
  end.

(** [roles] holds no system message, and each of its assistant messages comes
    right after a user message; [prev] is the role before the first one. *)
Fixpoint turns_from (prev : Role) (roles : list Role) : bool :=
  match roles with
  | [] => true
  | system :: _ => false
  | user :: rest => turns_from user rest
  | assistant :: rest => Role_eqb prev user && turns_from assistant rest
  end.

(** [getMessageCount] *)
Definition getMessageCount (ag : CodingAgent) : nat :=
  length (filter (fun m => negb (Role_eqb (role m) system)) (conversationHistory ag)).

End Agent.

Import Agent.

(** ** The incremental code-block extractor: [CodeExtractor] *)

Module PendingFile.

Record t := { filename : str; content : str; fullPath : str; isNew : bool }.

End PendingFile.

Module Extractor.

(** What the extractor reads of the platform: [path.isAbsolute], [path.join]
    and [fs.existsSync] (the file system as it stands during the turn). *)
Record Platform := {
  isAbsolute : str -> bool;
  join : str -> str -> str;
  existsSync : str -> bool
}.

Record CodeExtractor := {
  buffer : str;
  inBlock : bool;
  filename : str;
  code : str;
  dir : str;
  extractedFiles : list PendingFile.t
}.

(** [new CodeExtractor(dir)], which is also the state after [reset]. *)
Definition create (d : str) : CodeExtractor :=
  {| buffer := []; inBlock := false; filename := []; code := []; dir := d;
     extractedFiles := [] |}.

(** The character class [\w] (no [u] or [i] flag): [A-Za-z0-9_]. *)
Definition is_word (c : ascii) : bool :=
  let n := nat_of_ascii c in
  ((48 <=? n) && (n <=? 57)) || ((65 <=? n) && (n <=? 90))
  || ((97 <=? n) && (n <=? 122)) || (n =? 95).

(** The character class [[^\n]]. *)
Definition not_newline (c : ascii) : bool := negb (Ascii.eqb c nl).

(** The longest prefix whose code units all satisfy [p], and what follows:
    what a greedy [+] consumes before it backtracks. *)
Fixpoint span (p : ascii -> bool) (s : str) : str * str :=
  match s with
  | c :: s' => if p c then let '(a, b) := span p s' in (c :: a, b) else ([], s)
  | [] => ([], [])
  end.

Definition fence : str := lit "```".

(** The groups of one regular-expression match: [match[0]], [match[1]] and
    [match[2]]. *)
Record RegExpMatch := { m0 : str; m1 : str; m2 : str }.

(** [/```(\w+):([^\n]+)\n/] anchored at the start of [s].  Both quantifiers are
    greedy, and giving back a code unit never helps: the unit after a shorter
    [\w+] is a word character, not the colon, and the unit after a shorter
    [[^\n]+] is not the newline.  So the match, when there is one, is the one
    with both runs the longest. *)
Definition match_here (s : str) : option RegExpMatch :=
  if startsWith fence s then
    let '(tag, s2) := span is_word (skipn 3 s) in
    match tag, s2 with
    | _ :: _, c :: s3 =>
        if Ascii.eqb c ":"%char then
          let '(path, s4) := span not_newline s3 in
          match path, s4 with
          | _ :: _, _ :: _ =>
              Some {| m0 := fence ++ tag ++ [":"%char] ++ path ++ [nl];
                      m1 := tag; m2 := path |}
          | _, _ => None
          end
        else None
    | _, _ => None
    end
  else None.

(** [s.match(/```(\w+):([^\n]+)\n/)]: the match at the leftmost offset that has
    one; [None] is [null]. *)
Fixpoint regexp_match (s : str) : option RegExpMatch :=
  match match_here s with
  | Some m => Some m
  | None => match s with
            | [] => None
            | _ :: s' => regexp_match s'
            end
  end.

(** The texts [/```(\w+):([^\n]+)\n/] matches: the fence, a tag of one or more
    word characters, a colon, a path of one or more code units other than the
    newline, and a newline. *)
Definition opening (tag path : str) : str := fence ++ tag ++ ":"%char :: path ++ [nl].

Definition well_formed (tag path : str) : Prop :=
  tag <> [] /\ forallb is_word tag = true /\
  path <> [] /\ forallb not_newline path = true.

(** [text] contains a match of the opening pattern. *)
Definition has_opening (text : str) : Prop :=
  exists pre tag path post,
    text = pre ++ opening tag path ++ post /\ well_formed tag path.

Definition with_buffer (ex : CodeExtractor) (b : str) : CodeExtractor :=
  {| buffer := b; inBlock := inBlock ex; filename := filename ex; code := code ex;
     dir := dir ex; extractedFiles := extractedFiles ex |}.

(** The branch of [process] taken when [inBlock] is false, after the chunk was
    appended.  ([UI.toolCall] only prints.) *)
Definition scan (ex : CodeExtractor) : CodeExtractor :=
  match regexp_match (buffer ex) with
  | Some m =>
      let start := match Js.indexOf (m0 m) (buffer ex) with
                   | Some i => i + length (m0 m)
                   | None => length (m0 m) - 1
                   end in
      {| buffer := skipn start (buffer ex);
         inBlock := true;
         filename := trim (m2 m);
         code := [];
         dir := dir ex;
         extractedFiles := extractedFiles ex |}
  | None =>
      if 200 <? length (buffer ex)
      then with_buffer ex (slice_last 200 (buffer ex))
      else ex
  end.

(** The artifact pushed for the current block with body [body]. *)
Definition artifact (P : Platform) (ex : CodeExtractor) (body : str) : PendingFile.t :=
  let fullPath := if isAbsolute P (filename ex) then filename ex
                  else join P (dir ex) (filename ex) in
  {| PendingFile.filename := filename ex;
     PendingFile.content := trim body;
     PendingFile.fullPath := fullPath;
     PendingFile.isNew := negb (existsSync P fullPath) |}.

(** [process(chunk)].  The recursive call [this.process("")] appends nothing
    and runs with [inBlock] false: it is [scan] on the buffer left after the
    closing fence. *)
Definition process (P : Platform) (ex : CodeExtractor) (chunk : str) : CodeExtractor :=
  let ex1 := with_buffer ex (buffer ex ++ chunk) in
  if negb (inBlock ex1) then scan ex1
  else
    match Js.indexOf fence (buffer ex1) with
    | Some endIndex =>
        let body := code ex1 ++ firstn endIndex (buffer ex1) in
        let ex2 :=
          {| buffer := skipn (endIndex + 3) (buffer ex1);
             inBlock := false;
             filename := [];
             code := [];
             dir := dir ex1;
             extractedFiles := extractedFiles ex1 ++ [artifact P ex1 body] |} in
        if 0 <? length (buffer ex2) then scan ex2 else ex2
    | None =>
        if 10 <? length (buffer ex1) then
          {| buffer := slice_last 10 (buffer ex1);
             inBlock := inBlock ex1;
             filename := filename ex1;
             code := code ex1 ++ slice_but_last 10 (buffer ex1);
             dir := dir ex1;
             extractedFiles := extractedFiles ex1 |}
        else ex1
    end.

(** The files [flush] pushes onto the global [pendingFiles]. *)
Definition flushed (P : Platform) (ex : CodeExtractor) : list PendingFile.t :=
  if inBlock ex && nonempty (code ex)
  then extractedFiles ex ++ [artifact P ex (code ex ++ buffer ex)]
  else extractedFiles ex.

(** [flush()]: the new [pendingFiles] and the extractor after [reset]. *)
Definition flush (P : Platform) (ex : CodeExtractor) (pendingFiles : list PendingFile.t)
  : list PendingFile.t * CodeExtractor :=
  (pendingFiles ++ flushed P ex, create (dir ex)).

(** Feeding the deltas of a turn in order. *)
Definition feed (P : Platform) (ex : CodeExtractor) (chunks : list str) : CodeExtractor :=
  fold_left (process P) chunks ex.

(** The artifacts of a reply delivered as [chunks] to a new extractor: every
    chunk through [process], then [flush]. *)
Definition extract (P : Platform) (d : str) (chunks : list str) : list PendingFile.t :=
  fst (flush P (feed P (create d) chunks) []).

(** The part of an artifact the extractor itself decides. *)
Definition named (f : PendingFile.t) : str * str :=
  (PendingFile.filename f, PendingFile.content f).

(** A POSIX-like platform with an empty file system, for running examples. *)
Definition posix : Platform :=
  {| isAbsolute := startsWith (lit "/");
     join := fun d f => d ++ lit "/" ++ f;
     existsSync := fun _ => false |}.

End Extractor.

(** ** The turn driver and the error branch of the prompt loop *)

Module Handler.

Import Extractor.

(** The module-level variables of Handler.ts that a turn reads or writes. *)
Record Session := {
  agent : CodingAgent;
  pendingFiles : list PendingFile.t;
  isFirstMessage : bool;
  conversationCount : nat;
  currentDir : str
}.

(** The text sent for [message]; [structure] is what [getFullStructure]
    prints for the working directory. *)
Definition fullMessage (structure : str) (st : Session) (message : str) : str :=
  if isFirstMessage st then
    lit "Project structure:" ++ nl :: structure ++ nl :: nl ::
    lit "Help me code. Use ```lang:filename.ext for files." ++ nl :: nl ::
    lit "User request: " ++ message
  else message.

(** What one call of [sendMessage] leaves behind: the session, the chunks
    written to the terminal, the files handed to [processPendingFiles], and
    the error it rethrows. *)
Record Outcome := {
  session : Session;
  written : list str;
  offered : list PendingFile.t;
  rethrown : option JsError
}.

(** [sendMessage].  [chunks] are the deltas the transport delivers and
    [failure] the error it then throws, if any.  The loop body never leaves
    the [for await] early, so the generator is not closed by its consumer.
    [processPendingFiles] takes the whole list and empties it. *)
Definition sendMessage (P : Platform) (structure : str) (st : Session)
                       (message : str) (chunks : list str) (failure : option JsError)
  : Outcome :=
  let full := fullMessage structure st message in
  let extractor := create (currentDir st) in
  let r := sendStream (agent st) full chunks
             (match failure with Some e => Threw e | None => Completed end) in
  let extractor' := feed P extractor (yielded r) in
  let pending := fst (flush P extractor' (pendingFiles st)) in
  match thrown r with
  | Some err =>
      {| session := {| agent := agent_after r; pendingFiles := pending;
                       isFirstMessage := false;
                       conversationCount := conversationCount st;
                       currentDir := currentDir st |};
         written := yielded r;
         offered := [];
         rethrown := Some err |}
  | None =>
      {| session := {| agent := agent_after r;
                       pendingFiles := if 0 <? length pending then [] else pending;
                       isFirstMessage := false;
                       conversationCount := S (conversationCount st);
                       currentDir := currentDir st |};
         written := yielded r;
         offered := if 0 <? length pending then pending else [];
         rethrown := None |}
  end.

(** The condition under which the prompt loop answers an error with the retry
    suggestion. *)
Definition suggests_retry (err : JsError) : bool :=
  str_eqb (name err) (lit "AbortError") || includes (lit "timeout") (message err).

(** The text [UI.error] shows for an [Error] caught around [sendMessage]. *)
Definition error_text (err : JsError) : str :=
  if suggests_retry err then lit "Request timed out. Try /retry" else message err.

End Handler.

(** ** Handing the extracted files over: [processPendingFiles] *)

Module Materialize.

(** [s.toLowerCase()] on the 0..255 range: the letters A-Z and the Latin-1
    capitals (192..222 but the multiplication sign) move up by 32. *)
Definition lower (c : ascii) : ascii :=
  let n := nat_of_ascii c in
  if ((65 <=? n) && (n <=? 90))
     || ((192 <=? n) && (n <=? 222) && negb (n =? 215))
  then ascii_of_nat (n + 32) else c.

Definition toLowerCase (s : str) : str := map lower s.

(** What the world answers while one pending file is handled: the error of
    reading the file that already exists at its path, if that read throws;
    the line typed at the question; the error of creating the directory or
    writing the file, if that throws. *)
Record Answers := {
  read_throws : option JsError;
  typed : str;
  write_throws : option JsError
}.

(** What is done with one file: written, not written because the write
    threw, skipped by the answer n or by an earlier answer s, or skipped by
    the answer s itself. *)
Inductive Event :=
| Saved (file : PendingFile.t)
| SaveFailed (file : PendingFile.t) (err : JsError)
| Skipped (file : PendingFile.t)
| SkippedRemaining (file : PendingFile.t).

Definition event_file (ev : Event) : PendingFile.t :=
  match ev with
  | Saved f | SaveFailed f _ | Skipped f | SkippedRemaining f => f
  end.

(** The outcome of the loop: what was done, in order; the module-level
    [autoAcceptAll] afterwards; the number of questions asked; the error that
    left the loop, if one did. *)
Record Pass := {
  events : list Event;
  autoAcceptAll : bool;
  asked : nat;
  thrown : option JsError
}.

Definition and_then (ev : Event) (questions : nat) (p : Pass) : Pass :=
  {| events := ev :: events p; autoAcceptAll := autoAcceptAll p;
     asked := questions + asked p; thrown := thrown p |}.

(** The [try] around [mkdirSync] and [writeFileSync]. *)
Definition write (file : PendingFile.t) (w : Answers) : Event :=
  match write_throws w with
  | None => Saved file
  | Some err => SaveFailed file err
  end.

(** The [for (const file of files)] loop.  The read of the old content is
    outside every [try]: an error there leaves the function. *)
Fixpoint loop (auto skip : bool) (files : list (PendingFile.t * Answers)) : Pass :=
  match files with
  | [] => {| events := []; autoAcceptAll := auto; asked := 0; thrown := None |}
  | (file, w) :: rest =>
      if skip then and_then (Skipped file) 0 (loop auto skip rest)
      else
        match read_throws w with
        | Some err => {| events := []; autoAcceptAll := auto; asked := 0; thrown := Some err |}
        | None =>
            if negb auto then
              let l := toLowerCase (trim (typed w)) in
              if str_eqb l (lit "n") then and_then (Skipped file) 1 (loop auto skip rest)
              else
                let auto' := if str_eqb l (lit "a") then true else auto in
                if str_eqb l (lit "s")
                then and_then (SkippedRemaining file) 1 (loop auto' true rest)
                else and_then (write file w) 1 (loop auto' skip rest)
            else and_then (write file w) 0 (loop auto skip rest)
        end
  end.

(** [processPendingFiles]: the new [pendingFiles] and the outcome.  Each
    pending file comes with what the world answers while it is handled. *)
Definition processPendingFiles (auto : bool) (pending : list (PendingFile.t * Answers))
  : list PendingFile.t * Pass :=
  match pending with
  | [] => ([], {| events := []; autoAcceptAll := auto; asked := 0; thrown := None |})
  | _ :: _ => ([], loop auto false pending)
  end.

End Materialize.

(** ** Commands: [resolveCommand] and [parseCommand] *)

Module Commands.

Import Materialize.

Definition commandAliases : list (str * str) :=
  [ (lit "/q", lit "/quit"); (lit "/e", lit "/exit"); (lit "/quit", lit "/quit");
    (lit "/exit", lit "/quit"); (lit "/h", lit "/help"); (lit "/?", lit "/help");
    (lit "/c", lit "/clear"); (lit "/cls", lit "/clear"); (lit "/hist", lit "/history");
    (lit "/cfg", lit "/config"); (lit "/settings", lit "/config"); (lit "/l", lit "/ls");
    (lit "/dir", lit "/ls"); (lit "/list", lit "/ls"); (lit "/s", lit "/save");
    (lit "/w", lit "/save"); (lit "/write", lit "/save"); (lit "/r", lit "/read");
    (lit "/cat", lit "/cat"); (lit "/show", lit "/cat"); (lit "/read", lit "/cat");
    (lit "/d", lit "/delete"); (lit "/del", lit "/delete"); (lit "/rm", lit "/delete");
    (lit "/x", lit "/run"); (lit "/exec", lit "/run"); (lit "/sh", lit "/sh");
    (lit "/$", lit "/sh"); (lit "/cmd", lit "/sh"); (lit "/shell", lit "/sh");
    (lit "/m", lit "/model"); (lit "/models", lit "/models"); (lit "/retry", lit "/retry");
    (lit "/r!", lit "/retry"); (lit "/st", lit "/status"); (lit "/info", lit "/status");
    (lit "/cd", lit "/cd"); (lit "/chdir", lit "/cd"); (lit "/tree", lit "/tree");
    (lit "/t", lit "/tree"); (lit "/add", lit "/add"); (lit "/a", lit "/add");
    (lit "/include", lit "/add"); (lit "/edit", lit "/edit"); (lit "/ed", lit "/edit");
    (lit "/vi", lit "/edit"); (lit "/vim", lit "/edit"); (lit "/setup", lit "/setup");
    (lit "/init", lit "/setup"); (lit "/auto", lit "/auto"); (lit "/y", lit "/auto") ].

(** The own property [key] of the alias table. *)
Fixpoint own (key : str) (table : list (str * str)) : option str :=
  match table with
  | [] => None
  | (k, v) :: rest => if str_eqb k key then Some v else own key rest
  end.

(** What [resolveCommand] returns: a command name, or, for the two keys that
    the table inherits from [Object.prototype] and that survive
    [toLowerCase], the inherited object. *)
Inductive Resolved :=
| Name (command : str)
| Inherited (key : str).

(** [commandAliases[lower] || lower] *)
Definition resolveCommand (cmd : str) : Resolved :=
  let lower := toLowerCase cmd in
  match own lower commandAliases with
  | Some command => Name command
  | None =>
      if str_eqb lower (lit "constructor") || str_eqb lower (lit "__proto__")
      then Inherited lower
      else Name lower
  end.

Definition is_quote (c : ascii) : bool := Ascii.eqb c dq || Ascii.eqb c "'"%char.

(** The character class of the first alternative: anything but white space
    and the two quotes. *)
Definition is_plain (c : ascii) : bool := negb (is_space c) && negb (is_quote c).

(** One round of the group of the expression in [parseCommand] (a run of
    plain code units, or a double-quoted or single-quoted stretch without
    that quote inside): the text it matches at the start of [s] and what
    follows.  The first code unit decides the alternative; a quote without
    its closing quote matches nothing. *)
Definition piece (s : str) : option (str * str) :=
  match s with
  | [] => None
  | q :: s' =>
      if is_plain q then Some (Extractor.span is_plain s)
      else if is_quote q then
        let '(inner, rest) := Extractor.span (fun c => negb (Ascii.eqb c q)) s' in
        match rest with
        | _ :: rest' => Some (q :: inner ++ [q], rest')
        | [] => None
        end
      else None
  end.

(** The greedy repetition of the group at the start of [s]: as many rounds as
    match, at most [fuel] of them. *)
Fixpoint token (fuel : nat) (s : str) : option (str * str) :=
  match fuel with
  | 0 => None
  | S fuel' =>
      match piece s with
      | None => None
      | Some (p, rest) =>
          match token fuel' rest with
          | Some (t, rest') => Some (p ++ t, rest')
          | None => Some (p, rest)
          end
      end
  end.

(** The matches of the global expression from left to right: a match where
    there is one, else one code unit further. *)
Fixpoint match_all (fuel : nat) (s : str) : list str :=
  match fuel with
  | 0 => []
  | S fuel' =>
      match s with
      | [] => []
      | _ :: s' =>
          match token (length s) s with
          | Some (t, rest) => t :: match_all fuel' rest
          | None => match_all fuel' s'
          end
      end
  end.

(** [s.endsWith(p)] *)
Definition endsWith (p s : str) : bool := startsWith (rev p) (rev s).

(** The quotes around a part are dropped: [part.slice(1, -1)]. *)
Definition unquote (part : str) : str :=
  if (startsWith [dq] part && endsWith [dq] part)
     || (startsWith (lit "'") part && endsWith (lit "'") part)
  then removelast (tl part) else part.

Record ParsedCommand := { command : Resolved; args : list str; raw : str }.

Definition parseCommand (input : str) : ParsedCommand :=
  let trimmed := trim input in
  let parts := map unquote (match_all (length trimmed) trimmed) in
  {| command := resolveCommand (hd [] parts); args := tl parts; raw := trimmed |}.

Inductive Category := setup | files | shell | chat | other.

Record CommandInfo := {
  name : str;
  aliases : list str;
  description : str;
  usage : str;
  category : Category
}.

Definition commandRegistry : list CommandInfo :=
  [ {| name := lit "/setup"; aliases := [lit "/init"];
       description := lit "Configure API connection"; usage := lit "/setup"; category := setup |};
    {| name := lit "/models"; aliases := [lit "/model"; lit "/m"];
       description := lit "Select AI model"; usage := lit "/models"; category := setup |};
    {| name := lit "/status"; aliases := [lit "/st"; lit "/info"];
       description := lit "Show current settings"; usage := lit "/status"; category := setup |};
    {| name := lit "/config"; aliases := [lit "/cfg"; lit "/settings"];
       description := lit "Show config file location"; usage := lit "/config"; category := setup |};
    {| name := lit "/ls"; aliases := [lit "/l"; lit "/dir"; lit "/list"];
       description := lit "List directory contents"; usage := lit "/ls [path]"; category := files |};
    {| name := lit "/tree"; aliases := [lit "/t"];
       description := lit "Show directory tree"; usage := lit "/tree [path]"; category := files |};
    {| name := lit "/cat"; aliases := [lit "/read"; lit "/show"; lit "/r"];
       description := lit "View file contents"; usage := lit "/cat <file>"; category := files |};
    {| name := lit "/add"; aliases := [lit "/a"; lit "/include"];
       description := lit "Add file to conversation context"; usage := lit "/add <file>";
       category := files |};
    {| name := lit "/edit"; aliases := [lit "/ed"; lit "/vi"; lit "/vim"];
       description := lit "Edit file in $EDITOR"; usage := lit "/edit <file>"; category := files |};
    {| name := lit "/run"; aliases := [lit "/x"; lit "/exec"];
       description := lit "Execute a script file"; usage := lit "/run <file>"; category := shell |};
    {| name := lit "/sh"; aliases := [lit "/shell"; lit "/cmd"; lit "/$"];
       description := lit "Run shell command"; usage := lit "/sh <command>"; category := shell |};
    {| name := lit "/cd"; aliases := [lit "/chdir"];
       description := lit "Change working directory"; usage := lit "/cd <path>"; category := shell |};
    {| name := lit "/clear"; aliases := [lit "/c"; lit "/cls"];
       description := lit "Clear conversation history"; usage := lit "/clear"; category := chat |};
    {| name := lit "/retry"; aliases := [lit "/r!"];
       description := lit "Retry last message"; usage := lit "/retry"; category := chat |};
    {| name := lit "/auto"; aliases := [lit "/y"];
       description := lit "Toggle auto-accept file saves"; usage := lit "/auto"; category := chat |};
    {| name := lit "/help"; aliases := [lit "/h"; lit "/?"];
       description := lit "Show this help"; usage := lit "/help"; category := other |};
    {| name := lit "/quit"; aliases := [lit "/q"; lit "/e"; lit "/exit"];
       description := lit "Exit Cody"; usage := lit "/quit"; category := other |} ].

(** A word: one or more plain code units. *)
Definition word (w : str) : Prop := w <> [] /\ forallb is_plain w = true.

(** What may follow a token: the end of the text, or a space. *)
Definition boundary (rest : str) : Prop := rest = [] \/ exists r, rest = " "%char :: r.

(** The words of [ws] with a space before each. *)
Definition spaced (ws : list str) : str := concat (map (fun w => " "%char :: w) ws).

End Commands.

(** ** The chat commands of [handleCommand] *)

Module Repl.

Import Extractor Handler.

(** The module-level variables of Handler.ts the chat commands touch;
    [agent] is [None] until the client is connected. *)
Record State := {
  agent : option CodingAgent;
  pendingFiles : list PendingFile.t;
  isFirstMessage : bool;
  conversationCount : nat;
  currentDir : str;
  lastUserMessage : str
}.

(** What a command did: it warned, or it ran a turn. *)
Inductive Done :=
| Warned (text : str)
| Said (text : str)
| Sent (turn : Handler.Outcome).

(** [case "/clear"] *)
Definition clear (st : State) : State * Done :=
  match agent st with
  | Some ag =>
      ({| agent := Some (clearHistory ag); pendingFiles := pendingFiles st;
          isFirstMessage := true; conversationCount := 0;
          currentDir := currentDir st;
          lastUserMessage := lastUserMessage st |},
       Said (lit "Conversation cleared"))
  | None => (st, Warned (lit "Not connected"))
  end.

(** [case "/retry"]: the history is cleared and the last message is sent
    again as a first message.  [chunks] and [failure] are what the transport
    delivers for that turn; the state returned is the one in which
    [sendMessage] hands the files over or rethrows. *)
Definition retry (P : Platform) (structure : str) (st : State)
                 (chunks : list str) (failure : option JsError) : State * Done :=
  match agent st with
  | None => (st, Warned (lit "Not connected. Run /setup first."))
  | Some ag =>
      if negb (nonempty (lastUserMessage st)) then (st, Warned (lit "No message to retry"))
      else
        let session :=
          {| Handler.agent := clearHistory ag;
             Handler.pendingFiles := pendingFiles st;
             Handler.isFirstMessage := true;
             Handler.conversationCount := conversationCount st;
             Handler.currentDir := currentDir st |} in
        let turn := sendMessage P structure session (lastUserMessage st) chunks failure in
        ({| agent := Some (Handler.agent (Handler.session turn));
            pendingFiles := Handler.pendingFiles (Handler.session turn);
            isFirstMessage := Handler.isFirstMessage (Handler.session turn);
            conversationCount := Handler.conversationCount (Handler.session turn);
            currentDir := Handler.currentDir (Handler.session turn);
            lastUserMessage := lastUserMessage st |},
         Sent turn)
  end.

End Repl.

(** * Properties *)

(** ** The conversation log *)

Section ConversationLog.

Lemma indexOf_absent m h :
  Forall (fun x => oid x <> oid m) h -> Agent.indexOf m h = None.
Proof.
  induction 1 as [| x h Hx _ IH]; simpl; [reflexivity |].
  apply Nat.eqb_neq in Hx. now rewrite Hx, IH.
Qed.

(** A message that is not yet in the history is found, once pushed, at the
    last index. *)
Lemma indexOf_pushed m h :
  Forall (fun x => oid x <> oid m) h ->
  Agent.indexOf m (push m h) = Some (length h).
Proof.
  unfold push. induction 1 as [| x h Hx _ IH]; simpl.
  - now rewrite Nat.eqb_refl.
  - apply Nat.eqb_neq in Hx. now rewrite Hx, IH.
Qed.

Lemma splice1_pushed m h : splice1 (length h) (push m h) = h.
Proof.
  unfold splice1, push.
  rewrite firstn_app, firstn_all, Nat.sub_diag, app_nil_r.
  rewrite skipn_app, skipn_all2 by lia.
  replace (S (length h) - length h) with 1 by lia.
  simpl. now rewrite app_nil_r.
Qed.

Lemma pop_pushed m h : pop (push m h) = h.
Proof. unfold pop, push. apply removelast_last. Qed.

Lemma allocated_fresh ag m :
  allocated ag -> oid m = fresh ag ->
  Forall (fun x => oid x <> oid m) (conversationHistory ag).
Proof.
  unfold allocated. intros H E. rewrite E.
  eapply Forall_impl; [| exact H]. simpl. intros; lia.
Qed.

(** The loop accumulates the concatenation of the deltas and yields each of
    them unchanged. *)
Lemma sendStream_loop_spec t chunks :
  sendStream_loop t chunks =
    ({| userMsg := userMsg t;
        fullResponse := fullResponse t ++ concat chunks;
        success := success t |}, chunks).
Proof.
  revert t. induction chunks as [| c cs IH]; intros t; simpl.
  - rewrite app_nil_r. now destruct t.
  - rewrite IH. simpl. now rewrite app_assoc.
Qed.

(** The history after a whole turn, in each of the three cases of the
    [finally] block. *)
Lemma sendStream_history ag userMessage chunks fin :
  allocated ag ->
  let u := {| oid := fresh ag; role := user; content := userMessage |} in
  let a := {| oid := S (fresh ag); role := assistant; content := concat chunks |} in
  conversationHistory (agent_after (sendStream ag userMessage chunks fin)) =
    match fin with
    | Completed =>
        if nonempty (concat chunks)
        then conversationHistory ag ++ [u; a]
        else conversationHistory ag ++ [u]
    | Threw _ | Closed => conversationHistory ag
    end.
Proof.
  intros Hal u a. unfold sendStream, sendStream_begin.
  rewrite sendStream_loop_spec. cbn [agent_after fullResponse userMsg success app].
  assert (Hidx : Agent.indexOf u (push u (conversationHistory ag))
                 = Some (length (conversationHistory ag)))
    by (apply indexOf_pushed, allocated_fresh; auto).
  destruct fin; unfold sendStream_finally, sendStream_end;
    cbn [success fullResponse userMsg conversationHistory fresh andb negb].
  - destruct (nonempty (concat chunks)); cbn [conversationHistory].
    + unfold push. now rewrite <- app_assoc.
    + reflexivity.
  - fold u. rewrite Hidx. apply splice1_pushed.
  - fold u. rewrite Hidx. apply splice1_pushed.
Qed.

Lemma sendStream_fresh ag userMessage chunks fin :
  fresh ag < fresh (agent_after (sendStream ag userMessage chunks fin))
  /\ fresh (agent_after (sendStream ag userMessage chunks fin)) <= S (S (fresh ag)).
Proof.
  unfold sendStream, sendStream_begin. rewrite sendStream_loop_spec.
  cbn [agent_after]. unfold sendStream_finally, sendStream_end.
  destruct fin; cbn [success fullResponse andb negb];
    try destruct (nonempty _); cbn [fresh]; lia.
Qed.

Lemma sendStream_yielded ag userMessage chunks fin :
  yielded (sendStream ag userMessage chunks fin) = chunks.
Proof.
  unfold sendStream, sendStream_begin. now rewrite sendStream_loop_spec.
Qed.

Lemma allocated_weaken h n n' :
  n <= n' -> Forall (fun m : Message => oid m < n) h -> Forall (fun m => oid m < n') h.
Proof. intros Hle. apply Forall_impl. intros; lia. Qed.

Lemma allocated_sendStream ag userMessage chunks fin :
  allocated ag -> allocated (agent_after (sendStream ag userMessage chunks fin)).
Proof.
  intros Hal. unfold allocated.
  pose proof (sendStream_fresh ag userMessage chunks fin) as [Hlt Hle].
  pose proof (sendStream_history userMessage chunks fin Hal) as Hh.
  cbv zeta in Hh. rewrite Hh.
  assert (Hold : Forall (fun m => oid m < fresh (agent_after (sendStream ag userMessage chunks fin)))
                        (conversationHistory ag))
    by (eapply allocated_weaken; [| exact Hal]; lia).
  destruct fin; auto.
  revert Hlt Hle Hold.
  unfold sendStream, sendStream_begin. rewrite sendStream_loop_spec.
  cbn [agent_after]. unfold sendStream_finally, sendStream_end.
  cbn [success fullResponse andb negb app].
  destruct (nonempty (concat chunks)); cbn [fresh]; intros Hlt Hle Hold;
    apply Forall_app; split; auto; repeat constructor; simpl; lia.
Qed.

Lemma allocated_step ag op : allocated ag -> allocated (step ag op).
Proof.
  intros Hal. destruct op as [um res | um chunks fin | | addition]; simpl.
  - unfold allocated, send. destruct res; cbn [fst conversationHistory fresh].
    + rewrite pop_pushed. eapply allocated_weaken; [| exact Hal]. lia.
    + unfold push. rewrite <- app_assoc. apply Forall_app. split.
      * eapply allocated_weaken; [| exact Hal]. lia.
      * repeat constructor; simpl; lia.
  - now apply allocated_sendStream.
  - unfold allocated, clearHistory. simpl. repeat constructor.
  - unfold allocated, updateSystemPrompt in *.
    destruct (conversationHistory ag) as [| m rest] eqn:E; [now rewrite E |].
    destruct (Role_eqb (role m) system); [| now rewrite E].
    simpl. inversion Hal; subst. constructor; auto.
Qed.

Lemma allocated_run ops : allocated (run ops).
Proof.
  unfold run. rewrite <- (rev_involutive ops).
  induction (rev ops) as [| op l IH]; simpl.
  - unfold allocated. simpl. repeat constructor.
  - rewrite fold_left_app. simpl. now apply allocated_step.
Qed.

(** What one operation does to element 0 of a history that starts with a
    system message. *)
Lemma step_head ag op m rest :
  allocated ag ->
  conversationHistory ag = m :: rest -> role m = system ->
  exists m' rest',
    conversationHistory (step ag op) = m' :: rest' /\ role m' = system /\
    match op with
    | OpClearHistory => content m' = SYSTEM_PROMPT
    | OpUpdateSystemPrompt addition =>
        oid m' = oid m /\ content m' = SYSTEM_PROMPT ++ [nl; nl] ++ addition
    | OpSend _ _ | OpSendStream _ _ _ => m' = m
    end.
Proof.
  intros Hal Hh Hr. destruct op as [um res | um chunks fin | | addition]; simpl.
  - unfold send. destruct res; cbn [fst conversationHistory].
    + rewrite pop_pushed, Hh. eauto.
    + unfold push. rewrite Hh. simpl. eauto.
  - pose proof (sendStream_history um chunks fin Hal) as H. cbv zeta in H.
    rewrite H, Hh. destruct fin; [destruct (nonempty _) | |]; simpl; eauto.
  - eexists _, _. simpl. eauto.
  - unfold updateSystemPrompt. rewrite Hh, Hr. simpl. eauto 6.
Qed.

Lemma run_snoc ops op : run (ops ++ [op]) = step (run ops) op.
Proof. unfold run. now rewrite fold_left_app. Qed.

Lemma run_head ops :
  exists m rest, conversationHistory (run ops) = m :: rest /\ role m = system.
Proof.
  rewrite <- (rev_involutive ops).
  induction (rev ops) as [| op l IH]; simpl.
  - unfold run. simpl. eauto.
  - rewrite run_snoc. destruct IH as (m & rest & Hh & Hr).
    destruct (step_head op (allocated_run (rev l)) Hh Hr) as (m' & rest' & H1 & H2 & _).
    eauto.
Qed.

(** C1 (amended): for every turn driven through [sendStream] that fails (the
    transport throws a transport error, a timeout or a cancellation, or the
    consumer closes the generator), the just-appended user message is removed
    from the conversation log: the log after the turn is the log before the
    turn, and so has the same length. *)
Theorem sendStream_failure_rolls_back ag userMessage chunks fin :
  allocated ag -> fin <> Completed ->
  let r := sendStream ag userMessage chunks fin in
  conversationHistory (agent_after r) = conversationHistory ag /\
  length (conversationHistory (agent_after r)) = length (conversationHistory ag).
Proof.
  intros Hal Hfin r. subst r.
  pose proof (sendStream_history userMessage chunks fin Hal) as H. cbv zeta in H.
  destruct fin; [congruence | |]; now rewrite H.
Qed.

Lemma sendStream_failure_rolls_back_witness :
  let ag := run [OpSend (lit "hello") (inr (lit "hi"))] in
  let e := Error (lit "API Error (500): down") in
  let r := sendStream ag (lit "again") [lit "par"; lit "tial"] (Threw e) in
  allocated ag /\ Threw e <> Completed /\
  conversationHistory (agent_after r) = conversationHistory ag /\
  length (conversationHistory (agent_after r)) = length (conversationHistory ag).
Proof.
  intros ag e r.
  assert (Hal : allocated ag) by (unfold allocated; simpl; repeat constructor).
  assert (Hne : Threw e <> Completed) by discriminate.
  split; [exact Hal |]. split; [exact Hne |].
  exact (sendStream_failure_rolls_back (lit "again") [lit "par"; lit "tial"] Hal Hne).
Defined.

(** C1, as stated, fails for the empty reply: a stream that ends normally
    without a single delta leaves the user message in the log. *)
Lemma sendStream_empty_reply_keeps_user_message :
  let r := sendStream new (lit "hi") [] Completed in
  thrown r = None /\ concat (yielded r) = [] /\
  conversationHistory (agent_after r) =
    conversationHistory new ++ [ {| oid := 1; role := user; content := lit "hi" |} ] /\
  length (conversationHistory (agent_after r)) <> length (conversationHistory new).
Proof.
  simpl. repeat split. discriminate.
Qed.

(** C6: for every turn driven through [sendStream] that completes with a
    non-empty accumulated reply, the log grows by exactly two entries: the
    user message, then the assistant message whose content is the
    concatenation of all yielded deltas. *)
Theorem sendStream_commit ag userMessage chunks :
  nonempty (concat chunks) = true ->
  let r := sendStream ag userMessage chunks Completed in
  thrown r = None /\ yielded r = chunks /\
  conversationHistory (agent_after r) =
    conversationHistory ag ++
      [ {| oid := fresh ag; role := user; content := userMessage |};
        {| oid := S (fresh ag); role := assistant; content := concat (yielded r) |} ] /\
  length (conversationHistory (agent_after r)) = 2 + length (conversationHistory ag).
Proof.
  intros Hne r. subst r. rewrite sendStream_yielded.
  unfold sendStream, sendStream_begin. rewrite sendStream_loop_spec.
  cbn [agent_after thrown]. unfold sendStream_finally, sendStream_end.
  cbn [success fullResponse userMsg conversationHistory fresh andb app].
  rewrite Hne. cbn [conversationHistory]. unfold push.
  rewrite <- app_assoc. cbn [app].
  repeat split. rewrite length_app. simpl. lia.
Qed.

Lemma sendStream_commit_witness :
  let r := sendStream new (lit "hello") [lit "Hi"; lit " there"] Completed in
  nonempty (concat [lit "Hi"; lit " there"]) = true /\
  map (fun m => (role m, content m)) (conversationHistory (agent_after r)) =
    [ (system, SYSTEM_PROMPT); (user, lit "hello"); (assistant, lit "Hi there") ].
Proof.
  intros r. split; [reflexivity |].
  destruct (@sendStream_commit new (lit "hello") [lit "Hi"; lit " there"] eq_refl)
    as (_ & _ & Hh & _).
  fold r in Hh. rewrite Hh. reflexivity.
Defined.

(** C8: after construction and any sequence of [send], [sendStream] (ending
    in success or failure), [clearHistory] and [updateSystemPrompt], element 0
    of the log exists and has role [system]; the next operation, whatever it
    is, leaves an element 0 of role [system]: [send] and [sendStream] leave it
    untouched, [updateSystemPrompt] replaces the content of the same object,
    and [clearHistory] starts a new log from a system message. *)
Theorem system_message_stays ops op :
  exists m rest m' rest',
    conversationHistory (run ops) = m :: rest /\ role m = system /\
    conversationHistory (run (ops ++ [op])) = m' :: rest' /\ role m' = system /\
    match op with
    | OpClearHistory => content m' = SYSTEM_PROMPT
    | OpUpdateSystemPrompt addition =>
        oid m' = oid m /\ content m' = SYSTEM_PROMPT ++ [nl; nl] ++ addition
    | OpSend _ _ | OpSendStream _ _ _ => m' = m
    end.
Proof.
  destruct (run_head ops) as (m & rest & Hh & Hr).
  destruct (step_head op (allocated_run ops) Hh Hr) as (m' & rest' & H1 & H2 & H3).
  exists m, rest, m', rest'. rewrite run_snoc. auto.
Qed.

End ConversationLog.

(** ** The transport client *)

Section TransportClient.

Import Api.

Context {R : Runtime}.

Lemma split_nonempty sep s : split sep s <> [].
Proof.
  destruct s as [| c s]; simpl; [discriminate |].
  destruct (Ascii.eqb c sep); [discriminate |].
  destruct (split sep s); discriminate.
Qed.

(** Splitting a text received in two parts: the complete segments of the
    first part, then the segments of what the first part left unfinished
    followed by the second part. *)
Lemma split_app sep x y :
  split sep (x ++ y) =
    removelast (split sep x) ++ split sep (last (split sep x) [] ++ y).
Proof.
  induction x as [| c x IH]; [reflexivity |].
  cbn [app split]. destruct (Ascii.eqb c sep) eqn:Ec.
  - rewrite IH. pose proof (split_nonempty sep x) as Hne.
    destruct (split sep x) as [| seg segs]; [congruence |]. reflexivity.
  - rewrite IH. pose proof (split_nonempty sep x) as Hne.
    destruct (split sep x) as [| seg [| seg2 segs]]; [congruence | |].
    + cbn [removelast last app split]. rewrite Ec. reflexivity.
    + reflexivity.
Qed.

Lemma last_app_nonempty (A : Type) (l l' : list A) d :
  l' <> [] -> last (l ++ l') d = last l' d.
Proof.
  intros Hne. induction l as [| a l IH]; [reflexivity |].
  cbn [app last]. rewrite IH. destruct (l ++ l') eqn:E; [| reflexivity].
  apply app_eq_nil in E. tauto.
Qed.

Lemma removelast_split_app sep x y :
  removelast (split sep (x ++ y)) =
    removelast (split sep x) ++ removelast (split sep (last (split sep x) [] ++ y)).
Proof.
  rewrite split_app. apply removelast_app, split_nonempty.
Qed.

Lemma last_split_app sep x y :
  last (split sep (x ++ y)) [] = last (split sep (last (split sep x) [] ++ y)) [].
Proof.
  rewrite split_app. apply last_app_nonempty, split_nonempty.
Qed.

Lemma decode_app d x y :
  decode d (x ++ y) =
    let '(d1, t1) := decode d x in
    let '(d2, t2) := decode d1 y in
    (d2, t1 ++ t2).
Proof.
  revert d. induction x as [| b x IH]; intros d; cbn [app decode].
  - now destruct (decode d y).
  - destruct (decode_byte d b) as [d1 t1]. rewrite IH.
    destruct (decode d1 x) as [d2 t2]. destruct (decode d2 y) as [d3 t3].
    now rewrite app_assoc.
Qed.

(** The loop over the lines of one read, cut in two. *)
Lemma process_lines_app l1 l2 :
  process_lines (l1 ++ l2) =
    match process_lines l1 with
    | (ys, Some e) => (ys, Some e)
    | (ys, None) => let '(ys', e) := process_lines l2 in (ys ++ ys', e)
    end.
Proof.
  induction l1 as [| line l1 IH]; cbn [app process_lines].
  - now destruct (process_lines l2).
  - destruct (process_line line); try reflexivity.
    + exact IH.
    + rewrite IH. destruct (process_lines l1) as [ys [e |]]; [reflexivity |].
      now destruct (process_lines l2).
Qed.

(** Two reads in a row do what one read of their bytes does. *)
Lemma read_loop_merge buffer d x y rest :
  read_loop buffer d (Chunk x :: Chunk y :: rest) =
  read_loop buffer d (Chunk (x ++ y) :: rest).
Proof.
  cbn [read_loop]. rewrite decode_app.
  destruct (decode d x) as [d1 t1]. destruct (decode d1 y) as [d2 t2].
  rewrite app_assoc, (removelast_split_app nl (buffer ++ t1) t2),
    (last_split_app nl (buffer ++ t1) t2), process_lines_app.
  destruct (process_lines (removelast (split nl (buffer ++ t1)))) as [ys [e |]];
    [reflexivity |].
  destruct (process_lines (removelast (split nl (last (split nl (buffer ++ t1)) [] ++ t2))))
    as [ys' [e' |]].
  - reflexivity.
  - destruct (read_loop _ d2 rest) as [ys'' e'']. now rewrite app_assoc.
Qed.

Lemma read_loop_chunks buffer d c cs :
  read_loop buffer d (map Chunk (c :: cs)) = read_loop buffer d [Chunk (concat (c :: cs))].
Proof.
  revert c. induction cs as [| c2 cs IH]; intros c.
  - cbn [map concat]. now rewrite app_nil_r.
  - change (map Chunk (c :: c2 :: cs)) with (Chunk c :: Chunk c2 :: map Chunk cs).
    rewrite read_loop_merge.
    change (Chunk (c ++ c2) :: map Chunk cs) with (map Chunk ((c ++ c2) :: cs)).
    rewrite IH. cbn [concat]. now rewrite app_assoc.
Qed.

Lemma process_rest_nil : process_rest [] = [].
Proof. reflexivity. Qed.

Lemma read_loop_no_chunk d : read_loop [] d [] = read_loop [] d [Chunk []].
Proof. reflexivity. Qed.

(** C5: for every SSE payload and every way of cutting its bytes into
    network chunks, [chatStream] yields the same deltas and ends the same way
    as when the payload arrives as one chunk; in particular the concatenation
    of the yielded deltas is the same. *)
Theorem chatStream_split_invariant (chunks : list (list byte)) :
  let split_run := chatStream (streaming (map Chunk chunks)) in
  let whole_run := chatStream (streaming [Chunk (concat chunks)]) in
  split_run = whole_run /\
  deltas_text (fst split_run) = deltas_text (fst whole_run).
Proof.
  assert (H : chatStream (streaming (map Chunk chunks))
              = chatStream (streaming [Chunk (concat chunks)])).
  { unfold chatStream, streaming. cbn [ok body negb].
    destruct chunks as [| c cs].
    - apply read_loop_no_chunk.
    - apply read_loop_chunks. }
  cbv zeta. now rewrite H.
Qed.

(** What the loop body does with a line that reaches [JSON.parse]. *)
Lemma process_line_payload line payload :
  payload_of line = Some payload ->
  process_line line =
    match JSON_parse payload with
    | None => Skip
    | Some parsed =>
        if is_nullish parsed then Throw TypeError
        else if truthy (get parsed (lit "error"))
        then Throw (envelope_error (get parsed (lit "error")))
        else if startsWith (lit "data: ") (trim line) && truthy (delta_content parsed)
        then Yield (delta_content parsed)
        else Skip
    end.
Proof.
  unfold payload_of, process_line.
  destruct (negb (nonempty (trim line))); [discriminate |].
  destruct (startsWith (lit "data: ") (trim line)).
  - destruct (str_eqb _ _); [discriminate |].
    intros [= <-]. destruct (JSON_parse _) as [parsed |]; [| reflexivity].
    destruct (is_nullish parsed); [reflexivity |].
    destruct (truthy (get parsed _)); [reflexivity |].
    cbn [andb]. reflexivity.
  - destruct (startsWith (lit "{") (trim line)); [| discriminate].
    intros [= <-]. destruct (JSON_parse _) as [parsed |]; [| reflexivity].
    destruct (is_nullish parsed); [reflexivity |].
    destruct (truthy (get parsed _)); reflexivity.
Qed.

(** C7 (amended): in the loop over the complete lines of the stream, a line
    whose payload is malformed JSON is skipped: the loop yields and ends as if
    the line were not there.  A line whose payload parses to a value with a
    truthy [error] property makes the stream fail with the error built from
    it, and the deltas yielded by the lines before it stay yielded. *)
Theorem parse_noise_skipped_error_envelope_thrown before line after payload ys :
  payload_of line = Some payload ->
  process_lines before = (ys, None) ->
  match JSON_parse payload with
  | None =>
      process_lines (before ++ line :: after) = process_lines (before ++ after)
  | Some parsed =>
      is_nullish parsed = false ->
      truthy (get parsed (lit "error")) = true ->
      process_lines (before ++ line :: after) =
        (ys, Some (Failed (envelope_error (get parsed (lit "error")))))
  end.
Proof.
  intros Hp Hb. pose proof (process_line_payload _ Hp) as Hl.
  destruct (JSON_parse payload) as [parsed |].
  - intros Hn Ht. rewrite Hn, Ht in Hl.
    rewrite process_lines_app, Hb. cbn [process_lines]. rewrite Hl.
    now rewrite app_nil_r.
  - rewrite !process_lines_app, Hb. cbn [process_lines]. now rewrite Hl.
Qed.

(** A rejected read ends the stream with its error, unless the lines read
    before it had already ended the stream. *)
Lemma read_loop_rejects e rest chunks : forall buffer d,
  exists ys,
    read_loop buffer d (map Chunk chunks ++ Rejects e :: rest) = (ys, Failed e)
    \/ exists en, forall rest',
         read_loop buffer d (map Chunk chunks ++ rest') = (ys, en).
Proof.
  induction chunks as [| c cs IH]; intros buffer d.
  - exists []. left. reflexivity.
  - cbn [map app read_loop]. destruct (decode d c) as [d' text].
    destruct (process_lines _) as [ys [en |]].
    + exists ys. right. exists en. reflexivity.
    + destruct (IH (last (split nl (buffer ++ text)) []) d') as [ys' [H | [en H]]].
      * exists (ys ++ ys'). left. now rewrite H.
      * exists (ys ++ ys'). right. exists en. intros rest'. now rewrite H.
Qed.

(** C9 (amended): a stream that is cancelled or times out fails with the
    [AbortError] of the platform, whether the abort arrives before the
    response or during a read (unless the stream had already ended).  Its
    name differs from the name [Error] of the transport errors (status not
    2xx) and of the protocol errors (embedded error envelope).  The caller
    answers the [AbortError] with the retry suggestion; it answers a transport
    or protocol error with the same suggestion exactly when the message of
    that error contains the text timeout. *)
Theorem abort_error_has_its_own_name (r : Response) (v : value)
    (chunks : list (list byte)) (rest : list Read) :
  name AbortError = lit "AbortError" /\
  name (api_error r) = lit "Error" /\
  name (envelope_error v) = lit "Error" /\
  chatStream (FetchRejects AbortError) = ([], Failed AbortError) /\
  (exists ys,
     chatStream (streaming (map Chunk chunks ++ Rejects AbortError :: rest))
       = (ys, Failed AbortError)
     \/ exists en, forall rest',
          chatStream (streaming (map Chunk chunks ++ rest')) = (ys, en)) /\
  Handler.suggests_retry AbortError = true /\
  Handler.suggests_retry (api_error r)
    = includes (lit "timeout") (message (api_error r)) /\
  Handler.suggests_retry (envelope_error v)
    = includes (lit "timeout") (message (envelope_error v)).
Proof.
  repeat split; try reflexivity.
  unfold chatStream, streaming. cbn [ok body negb].
  apply read_loop_rejects.
Qed.

End TransportClient.

(** ** The transport client on concrete payloads *)

Section Payloads.

Import Api Json.

Lemma parse_noise_skipped_error_envelope_thrown_witness :
  (payload_of noise = Some (skipn 6 noise) /\
   process_lines [hi] = ([JString (lit "Hi")], None) /\
   JSON_parse (skipn 6 noise) = None /\
   process_lines ([hi] ++ noise :: [hi]) = process_lines ([hi] ++ [hi])) /\
  (payload_of envelope = Some (skipn 6 envelope) /\
   JSON_parse (skipn 6 envelope)
     = Some (JObject [(lit "error", JObject [(lit "message", JString (lit "boom"))])]) /\
   process_lines ([hi] ++ envelope :: [hi])
     = ([JString (lit "Hi")], Some (Failed (Error (lit "boom"))))).
Proof.
  split.
  - split; [reflexivity |]. split; [reflexivity |]. split; [reflexivity |].
    exact (@parse_noise_skipped_error_envelope_thrown runtime
             [hi] noise [hi] (skipn 6 noise) [JString (lit "Hi")] eq_refl eq_refl).
  - split; [reflexivity |]. split; [reflexivity |].
    exact (@parse_noise_skipped_error_envelope_thrown runtime
             [hi] envelope [hi] (skipn 6 envelope) [JString (lit "Hi")] eq_refl eq_refl
             eq_refl eq_refl).
Defined.

(** A stream of two deltas and the sentinel, whole and cut inside the first
    line: the same deltas either way. *)
Lemma chatStream_sample_run :
  let payload := hi ++ nl :: nl :: quoted "data: {'choices':[{'delta':{'content':' there'}}]}"
                 ++ nl :: lit "data: [DONE]" ++ [nl] in
  chatStream (streaming [Chunk (bytes payload)])
    = ([JString (lit "Hi"); JString (lit " there")], Finished) /\
  chatStream (streaming [Chunk (bytes (firstn 20 payload)); Chunk (bytes (skipn 20 payload))])
    = ([JString (lit "Hi"); JString (lit " there")], Finished) /\
  deltas_text (fst (chatStream (streaming [Chunk (bytes payload)]))) = lit "Hi there".
Proof.
  repeat split.
Qed.

(** C7, as stated, fails for an [error] field that is not truthy: the line
    is well-formed JSON and contains an error field, and the stream goes on
    and ends normally. *)
Lemma null_error_field_does_not_fail :
  let line := quoted "data: {'error':null,'choices':[{'delta':{'content':'Hi'}}]}" in
  JSON_parse (skipn 6 line)
    = Some (JObject [ (lit "error", JNull);
                      (lit "choices",
                       JArray [JObject [(lit "delta",
                                         JObject [(lit "content", JString (lit "Hi"))])]]) ]) /\
  process_line line = Yield (JString (lit "Hi")) /\
  chatStream (streaming [Chunk (bytes (hi ++ [nl] ++ line ++ [nl]))])
    = ([JString (lit "Hi"); JString (lit "Hi")], Finished).
Proof.
  repeat split.
Qed.

(** C9, as stated, fails at the caller: a transport error whose body mentions
    a timeout is answered with the very text that answers a cancelled or
    timed-out stream. *)
Lemma transport_error_answered_with_retry :
  let r := {| ok := false; status := 504; text := lit "upstream timeout"; body := None |} in
  chatStream (Responds r) = ([], Failed (api_error r)) /\
  api_error r = Error (lit "API Error (504): upstream timeout") /\
  Handler.suggests_retry (api_error r) = true /\
  Handler.error_text (api_error r) = lit "Request timed out. Try /retry" /\
  Handler.error_text (api_error r) = Handler.error_text AbortError.
Proof.
  repeat split.
Qed.

End Payloads.

(** ** The block extractor *)

Section BlockExtractor.

Import Extractor.

Lemma startsWith_app p s : startsWith p (p ++ s) = true.
Proof.
  induction p as [| a p IH]; [reflexivity |].
  simpl. now rewrite Ascii.eqb_refl, IH.
Qed.

Lemma startsWith_inv p s : startsWith p s = true -> s = p ++ skipn (length p) s.
Proof.
  revert s. induction p as [| a p IH]; intros s H; [reflexivity |].
  destruct s as [| b s]; [discriminate |]. simpl in H.
  apply andb_prop in H as [Hab Hp]. apply Ascii.eqb_eq in Hab. subst b.
  simpl. f_equal. now apply IH.
Qed.

Lemma span_inv p s a b :
  span p s = (a, b) ->
  s = a ++ b /\ forallb p a = true /\
  match b with [] => True | c :: _ => p c = false end.
Proof.
  revert a b. induction s as [| c s IH]; intros a b H; simpl in H.
  - inversion H; subst. auto.
  - destruct (p c) eqn:Hc.
    + destruct (span p s) as [a' b'] eqn:E. inversion H; subst.
      destruct (IH _ _ eq_refl) as (-> & Hall & Hb).
      simpl. rewrite Hc, Hall. auto.
    + inversion H; subst. simpl. auto.
Qed.

Lemma span_app p a b :
  forallb p a = true ->
  match b with [] => True | c :: _ => p c = false end ->
  span p (a ++ b) = (a, b).
Proof.
  intros Ha Hb. induction a as [| c a IH]; simpl.
  - destruct b as [| c b]; [reflexivity |]. simpl. now rewrite Hb.
  - simpl in Ha. apply andb_prop in Ha as [Hc Ha].
    now rewrite Hc, IH.
Qed.

(** A match anchored at the start of [s] is a well-formed opening, and its
    groups are the tag and the path. *)
Lemma match_here_sound s m :
  match_here s = Some m ->
  exists post,
    s = opening (m1 m) (m2 m) ++ post /\ well_formed (m1 m) (m2 m) /\
    m0 m = opening (m1 m) (m2 m).
Proof.
  unfold match_here. destruct (startsWith fence s) eqn:Hf; [| discriminate].
  apply startsWith_inv in Hf. change (length fence) with 3 in Hf.
  destruct (span is_word (skipn 3 s)) as [tag s2] eqn:Et.
  apply span_inv in Et as (Es1 & Htag & _).
  destruct tag as [| t tag]; [discriminate |].
  destruct s2 as [| c s3]; [discriminate |].
  destruct (Ascii.eqb c ":"%char) eqn:Ec; [| discriminate].
  apply Ascii.eqb_eq in Ec. subst c.
  destruct (span not_newline s3) as [path s4] eqn:Ep.
  apply span_inv in Ep as (Es3 & Hpath & Hnl).
  destruct path as [| q path]; [discriminate |].
  destruct s4 as [| c s4]; [discriminate |].
  intros [= <-]. cbn [m0 m1 m2].
  assert (c = nl).
  { unfold not_newline in Hnl. apply negb_false_iff in Hnl. now apply Ascii.eqb_eq. }
  subst c. exists s4. split; [| split; [| reflexivity]].
  - rewrite Hf, Es1, Es3. unfold opening.
    repeat (rewrite <- ?app_assoc; cbn [app]). reflexivity.
  - unfold well_formed. repeat split; auto; discriminate.
Qed.

(** A well-formed opening at the start of a text is matched there, with the
    tag and the path as groups: the greedy runs stop at the colon and at the
    newline. *)
Lemma match_here_complete tag path post :
  well_formed tag path ->
  match_here (opening tag path ++ post) =
    Some {| m0 := opening tag path; m1 := tag; m2 := path |}.
Proof.
  intros (Ht & Hw & Hp & Hn). unfold match_here, opening.
  rewrite <- app_assoc, startsWith_app.
  replace (skipn 3 (fence ++ (tag ++ ":"%char :: path ++ [nl]) ++ post))
    with (tag ++ ":"%char :: path ++ nl :: post)
    by (cbn [fence lit list_ascii_of_string app skipn];
        rewrite <- !app_assoc; cbn [app]; now rewrite <- app_assoc).
  rewrite (span_app is_word tag (":"%char :: path ++ nl :: post) Hw eq_refl).
  destruct tag as [| t tag]; [congruence |].
  rewrite Ascii.eqb_refl.
  rewrite (span_app not_newline path (nl :: post) Hn eq_refl).
  destruct path as [| q path]; [congruence |].
  reflexivity.
Qed.

Lemma regexp_match_sound s m :
  regexp_match s = Some m ->
  exists pre post,
    s = pre ++ opening (m1 m) (m2 m) ++ post /\ well_formed (m1 m) (m2 m) /\
    m0 m = opening (m1 m) (m2 m).
Proof.
  induction s as [| c s IH]; cbn [regexp_match].
  - destruct (match_here []) eqn:E; [| discriminate].
    intros [= <-]. destruct (match_here_sound _ E) as (post & H1 & H2 & H3).
    exists [], post. auto.
  - destruct (match_here (c :: s)) eqn:E.
    + intros [= <-]. destruct (match_here_sound _ E) as (post & H1 & H2 & H3).
      exists [], post. auto.
    + intros H. destruct (IH H) as (pre & post & H1 & H2 & H3).
      exists (c :: pre), post. rewrite H1. auto.
Qed.

Lemma regexp_match_here s m : match_here s = Some m -> regexp_match s = Some m.
Proof. intros H. destruct s; cbn [regexp_match]; now rewrite H. Qed.

Lemma regexp_match_complete s : has_opening s -> regexp_match s <> None.
Proof.
  intros (pre & tag & path & post & -> & Hwf).
  induction pre as [| c pre IH].
  - cbn [app]. rewrite (regexp_match_here _ (match_here_complete post Hwf)).
    discriminate.
  - cbn [app regexp_match]. destruct (match_here _); [discriminate | exact IH].
Qed.

(** The matcher decides the presence of an opening. *)
Lemma regexp_match_None s : regexp_match s = None <-> ~ has_opening s.
Proof.
  split.
  - intros H Ho. now apply regexp_match_complete in Ho.
  - intros H. destruct (regexp_match s) as [m |] eqn:E; [| reflexivity].
    exfalso. apply H. destruct (regexp_match_sound _ E) as (pre & post & H1 & H2 & _).
    now exists pre, (m1 m), (m2 m), post.
Qed.

Lemma has_opening_within a b c : has_opening b -> has_opening (a ++ b ++ c).
Proof.
  intros (pre & tag & path & post & -> & Hwf).
  exists (a ++ pre), tag, path, (post ++ c). split; [| exact Hwf].
  now rewrite <- !app_assoc.
Qed.

(** Outside a block, [scan] keeps a suffix of the buffer, opens a block only
    on a match, and never adds a file. *)
Lemma scan_no_match ex :
  regexp_match (buffer ex) = None ->
  inBlock (scan ex) = inBlock ex /\ extractedFiles (scan ex) = extractedFiles ex /\
  exists pre, buffer ex = pre ++ buffer (scan ex).
Proof.
  intros H. unfold scan. rewrite H.
  destruct (200 <? length (buffer ex)).
  - cbn. repeat split. exists (firstn (length (buffer ex) - 200) (buffer ex)).
    unfold slice_last. now rewrite firstn_skipn.
  - repeat split. now exists [].
Qed.

Lemma feed_no_opening P chunks : forall ex,
  inBlock ex = false -> extractedFiles ex = [] ->
  ~ has_opening (buffer ex ++ concat chunks) ->
  inBlock (feed P ex chunks) = false /\ extractedFiles (feed P ex chunks) = [].
Proof.
  induction chunks as [| c cs IH]; intros ex Hin Hfiles Hno; [now split |].
  cbn [feed fold_left]. cbn [concat] in Hno.
  assert (Hc : regexp_match (buffer ex ++ c) = None).
  { apply regexp_match_None. intros Ho. apply Hno.
    apply (has_opening_within [] (concat cs)) in Ho.
    now rewrite <- app_assoc in Ho. }
  assert (Hp : process P ex c = scan (with_buffer ex (buffer ex ++ c)))
    by (unfold process; cbn [with_buffer inBlock]; now rewrite Hin).
  destruct (scan_no_match (with_buffer ex (buffer ex ++ c)) Hc) as (H1 & H2 & pre & H3).
  cbn [with_buffer inBlock extractedFiles buffer] in H1, H2, H3.
  apply IH; rewrite Hp.
  - now rewrite H1.
  - now rewrite H2.
  - intros Ho. apply Hno.
    apply (has_opening_within pre []) in Ho.
    rewrite app_nil_r, app_assoc, <- H3, <- app_assoc in Ho. exact Ho.
Qed.

(** C10: the extractor opens a block only on a fence followed by a tag of
    word characters, a colon and a path.  For every stream of chunks whose
    text contains no such opening (the tag of every fence has another
    character, as in c++ or objective-c, or the fence has no tag:path part),
    the extractor is outside a block after every chunk, has extracted no
    file, and flushing at any point yields no artifact. *)
Theorem no_opening_no_block P d chunks k :
  ~ has_opening (concat chunks) ->
  inBlock (feed P (create d) (firstn k chunks)) = false /\
  extractedFiles (feed P (create d) (firstn k chunks)) = [] /\
  extract P d (firstn k chunks) = [].
Proof.
  intros Hno.
  assert (H : inBlock (feed P (create d) (firstn k chunks)) = false /\
              extractedFiles (feed P (create d) (firstn k chunks)) = []).
  { apply feed_no_opening; try reflexivity. cbn [create buffer app].
    intros Ho. apply Hno. apply (has_opening_within [] (concat (skipn k chunks))) in Ho.
    cbn [app] in Ho. now rewrite <- concat_app, firstn_skipn in Ho. }
  destruct H as [H1 H2]. repeat split; auto.
  unfold extract, flush, flushed. cbn [fst app]. now rewrite H1, H2.
Qed.

Lemma no_opening_no_block_witness :
  let chunks := [ lit "Here:" ++ nl :: lit "```c+";
                  lit "+:main.cpp" ++ nl :: lit "int x;" ++ nl :: lit "```" ++ [nl];
                  lit "```objective-c:a.m" ++ nl :: lit "@end" ++ nl :: lit "```" ++ [nl];
                  lit "```" ++ nl :: lit "plain text, longer than ten" ++ nl :: lit "```" ] in
  ~ has_opening (concat chunks) /\
  inBlock (feed posix (create (lit "/w")) (firstn 4 chunks)) = false /\
  extractedFiles (feed posix (create (lit "/w")) (firstn 4 chunks)) = [] /\
  extract posix (lit "/w") (firstn 4 chunks) = [].
Proof.
  intros chunks.
  assert (Hno : ~ has_opening (concat chunks))
    by (apply regexp_match_None; reflexivity).
  split; [exact Hno |].
  exact (@no_opening_no_block posix (lit "/w") chunks 4 Hno).
Defined.

Lemma startsWith_app_l p a b : startsWith p a = true -> startsWith p (a ++ b) = true.
Proof.
  revert a. induction p as [| x p IH]; intros a H; [reflexivity |].
  destruct a as [| y a]; [discriminate |]. simpl in *.
  apply andb_prop in H as [H1 H2]. now rewrite H1, IH.
Qed.

Lemma indexOf_None_suffix p a b : Js.indexOf p (a ++ b) = None -> Js.indexOf p b = None.
Proof.
  induction a as [| c a IH]; [auto |].
  cbn [app Js.indexOf]. destruct (startsWith p (c :: a ++ b)); [discriminate |].
  destruct (Js.indexOf p (a ++ b)); [discriminate | auto].
Qed.

Lemma indexOf_None_prefix p a b : Js.indexOf p (a ++ b) = None -> Js.indexOf p a = None.
Proof.
  induction a as [| c a IH].
  - cbn [app]. intros H. destruct p as [| x p].
    + destruct b; discriminate.
    + reflexivity.
  - cbn [app Js.indexOf]. destruct (startsWith p (c :: a)) eqn:E.
    + apply (startsWith_app_l _ _ b) in E. cbn [app] in E. now rewrite E.
    + destruct (startsWith p (c :: a ++ b)); [discriminate |].
      destruct (Js.indexOf p (a ++ b)); [discriminate |].
      intros _. now rewrite IH.
Qed.

(** Inside a block, a chunk that completes no closing fence changes nothing
    but the split between the committed body and the trailing buffer. *)
Lemma process_capturing P ex c :
  inBlock ex = true -> Js.indexOf fence (buffer ex ++ c) = None ->
  inBlock (process P ex c) = true /\
  code (process P ex c) ++ buffer (process P ex c) = code ex ++ buffer ex ++ c /\
  (exists pre, buffer ex ++ c = pre ++ buffer (process P ex c)) /\
  filename (process P ex c) = filename ex /\ dir (process P ex c) = dir ex /\
  extractedFiles (process P ex c) = extractedFiles ex.
Proof.
  intros Hin Hno. unfold process. cbn [with_buffer inBlock buffer code filename dir extractedFiles].
  rewrite Hin, Hno. cbn [negb].
  destruct (10 <? length (buffer ex ++ c));
    cbn [inBlock buffer code filename dir extractedFiles]; repeat split; auto.
  - unfold slice_but_last, slice_last. now rewrite <- app_assoc, firstn_skipn.
  - exists (slice_but_last 10 (buffer ex ++ c)).
    unfold slice_but_last, slice_last. now rewrite firstn_skipn.
  - now exists [].
Qed.

Lemma feed_capturing P chunks : forall ex,
  inBlock ex = true -> Js.indexOf fence (buffer ex ++ concat chunks) = None ->
  inBlock (feed P ex chunks) = true /\
  code (feed P ex chunks) ++ buffer (feed P ex chunks)
    = code ex ++ buffer ex ++ concat chunks /\
  (exists pre, buffer ex ++ concat chunks = pre ++ buffer (feed P ex chunks)) /\
  filename (feed P ex chunks) = filename ex /\ dir (feed P ex chunks) = dir ex /\
  extractedFiles (feed P ex chunks) = extractedFiles ex.
Proof.
  induction chunks as [| c cs IH]; intros ex Hin Hno.
  - cbn [feed fold_left concat]. rewrite app_nil_r. repeat split; auto. now exists [].
  - cbn [feed fold_left]. cbn [concat] in Hno.
    assert (Hc : Js.indexOf fence (buffer ex ++ c) = None)
      by (rewrite app_assoc in Hno; now apply indexOf_None_prefix in Hno).
    destruct (process_capturing P ex c Hin Hc) as (H1 & H2 & (pre & H3) & H4 & H5 & H6).
    assert (Hs : Js.indexOf fence (buffer (process P ex c) ++ concat cs) = None).
    { apply (indexOf_None_suffix _ pre). now rewrite app_assoc, <- H3, <- app_assoc. }
    destruct (IH _ H1 Hs) as (I1 & I2 & (pre' & I3) & I4 & I5 & I6).
    fold (feed P (process P ex c) cs) in *.
    repeat split; try congruence.
    + rewrite I2, app_assoc, H2. cbn [concat]. now rewrite <- !app_assoc.
    + exists (pre ++ pre'). cbn [concat].
      now rewrite app_assoc, H3, <- !app_assoc, I3.
Qed.

Lemma feed_snoc P ex cs c : feed P ex (cs ++ [c]) = process P (feed P ex cs) c.
Proof. unfold feed. now rewrite fold_left_app. Qed.

Lemma nonempty_length (s : str) : nonempty s = true <-> 0 < length s.
Proof. destruct s; simpl; split; intros; try lia; auto; discriminate. Qed.

(** Some of the body is committed as soon as a chunk has arrived inside the
    block and the body received so far is longer than the ten code units
    retained in the buffer. *)
Lemma feed_commits_long_body P ex chunks :
  inBlock ex = true -> Js.indexOf fence (buffer ex ++ concat chunks) = None ->
  chunks <> [] -> 10 < length (buffer ex ++ concat chunks) ->
  nonempty (code (feed P ex chunks)) = true.
Proof.
  intros Hin Hno Hne Hlen.
  destruct (exists_last Hne) as (cs & c & ->).
  rewrite concat_app in Hno, Hlen. cbn [concat] in Hno, Hlen.
  rewrite app_nil_r in Hno, Hlen.
  assert (Hcs : Js.indexOf fence (buffer ex ++ concat cs) = None)
    by (rewrite app_assoc in Hno; now apply indexOf_None_prefix in Hno).
  destruct (feed_capturing P cs ex Hin Hcs) as (H1 & H2 & (pre & H3) & _).
  rewrite feed_snoc. set (ex1 := feed P ex cs) in *.
  apply nonempty_length.
  assert (Hsum : length (code ex1) + length (buffer ex1) + length c
                 = length (code ex) + length (buffer ex ++ concat cs ++ c)).
  { apply (f_equal (@length ascii)) in H2.
    rewrite !length_app in *. lia. }
  unfold process. cbn [with_buffer inBlock buffer code]. rewrite H1. cbn [negb].
  destruct (Js.indexOf fence (buffer ex1 ++ c)) as [i |] eqn:Ei.
  - exfalso. rewrite app_assoc, H3, <- app_assoc in Hno.
    apply indexOf_None_suffix in Hno. congruence.
  - destruct (10 <? length (buffer ex1 ++ c)) eqn:El; cbn [code].
    + apply Nat.ltb_lt in El. unfold slice_but_last.
      rewrite length_app, length_firstn. lia.
    + apply Nat.ltb_ge in El. rewrite length_app in El.
      cbn [with_buffer code]. lia.
Qed.

(** When a stream ends while the extractor is inside a block (no closing
    fence since the state [ex] inside the block) and some of the body has
    been committed to [code] by then, flushing emits exactly one artifact for
    the block, under the recorded file name, whose content is everything
    captured so far, trailing buffer included, trimmed. *)
Theorem unterminated_block_flushed P ex chunks pending :
  inBlock ex = true ->
  Js.indexOf fence (buffer ex ++ concat chunks) = None ->
  nonempty (code (feed P ex chunks)) = true ->
  inBlock (feed P ex chunks) = true /\
  fst (flush P (feed P ex chunks) pending) =
    pending ++ extractedFiles ex
      ++ [ {| PendingFile.filename := filename ex;
              PendingFile.content := trim (code ex ++ buffer ex ++ concat chunks);
              PendingFile.fullPath := PendingFile.fullPath (artifact P ex []);
              PendingFile.isNew := PendingFile.isNew (artifact P ex []) |} ].
Proof.
  intros Hin Hno Hcode.
  destruct (feed_capturing P chunks ex Hin Hno) as (H1 & H2 & _ & H3 & H4 & H5).
  split; [exact H1 |].
  unfold flush, flushed. cbn [fst]. rewrite H1, Hcode. cbn [andb].
  unfold artifact. now rewrite H2, H3, H4, H5.
Qed.

Lemma unterminated_block_flushed_witness :
  let ex := feed posix (create (lit "/w")) [lit "Sure:" ++ nl :: lit "```py:a.py" ++ [nl]] in
  let chunks := [lit "print('hello'"; lit ", 'world')" ++ [nl]] in
  inBlock ex = true /\
  Js.indexOf fence (buffer ex ++ concat chunks) = None /\
  nonempty (code (feed posix ex chunks)) = true /\
  map named (fst (flush posix (feed posix ex chunks) []))
    = [ (lit "a.py", lit "print('hello', 'world')") ].
Proof.
  intros ex chunks.
  split; [reflexivity |]. split; [reflexivity |]. split; [reflexivity |].
  destruct (@unterminated_block_flushed posix ex chunks [] eq_refl eq_refl eq_refl)
    as [_ H].
  rewrite H. reflexivity.
Defined.

(** C4 at a failing input: the stream ends inside the block of a.py with the
    body x = 1 received.  The body is still in the trailing buffer, [code] is
    empty, and [flush], which tests [code] alone before it appends the
    buffer, emits no artifact: the unterminated block is dropped. *)
Lemma short_unterminated_block_dropped :
  let chunks := [lit "```py:a.py" ++ [nl]; lit "x = 1"] in
  let ex := feed posix (create (lit "/w")) chunks in
  inBlock ex = true /\ filename ex = lit "a.py" /\
  code ex = [] /\ buffer ex = lit "x = 1" /\
  extract posix (lit "/w") chunks = [].
Proof.
  repeat split.
Qed.

(** The same short body is emitted when its closing fence arrives, and an
    unterminated body of eleven code units is emitted when it arrives after
    the opening line but dropped when it arrives in one chunk with it: what
    [flush] does with an unterminated block depends on the chunking. *)
Lemma short_block_kept_when_closed_or_rechunked :
  let opening_line := lit "```py:a.py" ++ [nl] in
  map named (extract posix (lit "/w") [opening_line; lit "x = 1" ++ nl :: lit "```"])
    = [ (lit "a.py", lit "x = 1") ] /\
  map named (extract posix (lit "/w") [opening_line; lit "x = 1;y = 2"])
    = [ (lit "a.py", lit "x = 1;y = 2") ] /\
  extract posix (lit "/w") [opening_line ++ lit "x = 1;y = 2"] = [].
Proof.
  repeat split.
Qed.

(** A reply delivered as a single chunk never yields an artifact: [process]
    returns right after it has opened the first block, and [flush] finds no
    committed body. *)
Lemma extract_single_chunk P d reply : extract P d [reply] = [].
Proof.
  unfold extract, flush, flushed, feed. cbn [fold_left fst app].
  assert (H : process P (create d) reply = scan (with_buffer (create d) reply))
    by reflexivity.
  rewrite H. unfold scan.
  change (buffer (with_buffer (create d) reply)) with reply.
  destruct (regexp_match reply); [reflexivity |].
  destruct (200 <? length reply); reflexivity.
Qed.

(** C2 at a failing input: the reply of the specification's scenario yields
    no artifact when it is delivered whole, and the artifact hello.py when it
    is cut after the opening line, or into single code units. *)
Lemma fence_boundary_invariance_fails :
  let reply := lit "Sure!" ++ nl :: lit "```python:hello.py" ++ nl ::
               quoted "print('hi')" ++ nl :: lit "```" ++ nl :: lit "Done." in
  concat [firstn 25 reply; skipn 25 reply] = reply /\
  extract posix (lit "/w") [reply] = [] /\
  map named (extract posix (lit "/w") [firstn 25 reply; skipn 25 reply])
    = [ (lit "hello.py", quoted "print('hi')") ] /\
  map named (extract posix (lit "/w") (map (fun c => [c]) reply))
    = [ (lit "hello.py", quoted "print('hi')") ] /\
  extract posix (lit "/w") [firstn 10 reply; skipn 10 reply] = [].
Proof.
  repeat split.
Qed.

End BlockExtractor.

(** ** The turn driver *)

Section TurnDriver.

Import Extractor Handler.

(** C3 (amended): a turn that fails mid-stream is flushed like any other:
    [sendMessage] rethrows the error after [flush] has pushed onto
    [pendingFiles] the files extracted so far and the unterminated block, if
    it has a committed body.  The files left pending are exactly those a
    normal end of the stream at that point hands to [processPendingFiles]. *)
Theorem failed_turn_is_flushed P structure st message chunks e :
  let failed := sendMessage P structure st message chunks (Some e) in
  let clean := sendMessage P structure st message chunks None in
  rethrown failed = Some e /\
  pendingFiles (session failed) =
    pendingFiles st ++ flushed P (feed P (create (currentDir st)) chunks) /\
  pendingFiles (session failed) = pendingFiles st ++ extract P (currentDir st) chunks /\
  offered clean = pendingFiles (session failed).
Proof.
  cbv zeta. unfold sendMessage. rewrite !sendStream_yielded.
  unfold sendStream, sendStream_begin. rewrite sendStream_loop_spec.
  cbn [thrown session rethrown pendingFiles offered].
  unfold extract, flush. cbn [fst app]. repeat split.
  destruct (pendingFiles st ++ _); reflexivity.
Qed.

(** C3, as stated, fails: a turn cancelled in the middle of a block leaves
    that block, cut where the stream stopped, in the pending-files list. *)
Lemma cancelled_turn_leaves_artifact :
  let st := {| agent := Agent.new; pendingFiles := []; isFirstMessage := false;
               conversationCount := 0; currentDir := lit "/w" |} in
  let aborted := {| name := lit "AbortError"; message := lit "The operation was aborted." |} in
  let r := sendMessage posix [] st (lit "write a.py")
             [lit "```py:a.py" ++ [nl]; lit "print('hello'"; lit ", 'wor"]
             (Some aborted) in
  rethrown r = Some aborted /\
  conversationHistory (agent (session r)) = conversationHistory Agent.new /\
  map named (pendingFiles (session r)) = [ (lit "a.py", lit "print('hello', 'wor") ].
Proof.
  repeat split.
Qed.

End TurnDriver.

(** ** More on the conversation log *)

Section ConversationQueries.

(** [send] commits the reply, empty or not, after the user message, and
    takes the user message back when [chat] throws. *)
Theorem send_commits_or_rolls_back ag userMessage res :
  snd (send ag userMessage res) = res /\
  conversationHistory (fst (send ag userMessage res)) =
    match res with
    | inr response =>
        conversationHistory ag ++
          [ {| oid := fresh ag; role := user; content := userMessage |};
            {| oid := S (fresh ag); role := assistant; content := response |} ]
    | inl _ => conversationHistory ag
    end.
Proof.
  unfold send. destruct res as [e | response]; cbn [fst snd conversationHistory].
  - split; [reflexivity |]. apply pop_pushed.
  - split; [reflexivity |]. unfold push. now rewrite <- app_assoc.
Qed.

Lemma last_cons (A : Type) (r : A) l d : last (r :: l) d = last l r.
Proof.
  revert r d. induction l as [| a l IH]; intros r d; [reflexivity |].
  change (last (r :: a :: l) d) with (last (a :: l) d).
  now rewrite (IH a d), (IH a r).
Qed.

Lemma turns_from_app prev l l' :
  turns_from prev (l ++ l') = turns_from prev l && turns_from (last l prev) l'.
Proof.
  revert prev. induction l as [| r l IH]; intros prev; [reflexivity |].
  rewrite last_cons. cbn [app turns_from]. destruct r.
  - reflexivity.
  - apply IH.
  - rewrite IH. now rewrite andb_assoc.
Qed.

Lemma turns_from_user_last prev l : turns_from prev (l ++ [user]) = turns_from prev l.
Proof. rewrite turns_from_app. cbn. now rewrite andb_true_r. Qed.

Lemma turns_from_turn prev l :
  turns_from prev (l ++ [user; assistant]) = turns_from prev l.
Proof. rewrite turns_from_app. cbn. now rewrite andb_true_r. Qed.

(** The shape of every reachable log. *)
Lemma run_shape ops :
  exists sys rest,
    conversationHistory (run ops) = sys :: rest /\ role sys = system /\
    turns_from system (map role rest) = true.
Proof.
  rewrite <- (rev_involutive ops).
  induction (rev ops) as [| op l IH]; cbn [rev].
  - unfold run. simpl. eauto.
  - rewrite run_snoc. destruct IH as (sys & rest & Hh & Hr & Ht).
    pose proof (allocated_run (rev l)) as Hal.
    destruct op as [um res | um chunks fin | | addition]; cbn [step].
    + destruct (send_commits_or_rolls_back (run (rev l)) um res) as [_ H].
      rewrite H, Hh. destruct res.
      * eauto.
      * exists sys, (rest ++ [ {| oid := fresh (run (rev l)); role := user; content := um |};
                               {| oid := S (fresh (run (rev l))); role := assistant; content := s |} ]).
        repeat split; auto. rewrite map_app. cbn [map role]. now rewrite turns_from_turn.
    + pose proof (sendStream_history um chunks fin Hal) as H. cbv zeta in H.
      rewrite H, Hh. destruct fin; [destruct (nonempty _) | |]; eauto.
      * eexists sys, (rest ++ [_; _]). repeat split; auto.
        rewrite map_app. cbn [map role]. now rewrite turns_from_turn.
      * eexists sys, (rest ++ [_]). repeat split; auto.
        rewrite map_app. cbn [map role]. now rewrite turns_from_user_last.
    + eexists _, []. simpl. eauto.
    + unfold updateSystemPrompt. rewrite Hh, Hr. cbn. eauto.
Qed.

(** After construction and any sequence of operations, the log is a system
    message followed by user and assistant messages only, and every assistant
    message comes right after a user message. *)
Theorem answers_follow_questions ops :
  exists sys rest,
    conversationHistory (run ops) = sys :: rest /\ role sys = system /\
    turns_from system (map role rest) = true.
Proof. apply run_shape. Qed.

Lemma turns_from_no_system prev (rest : list Message) :
  turns_from prev (map role rest) = true ->
  filter (fun m => negb (Role_eqb (role m) system)) rest = rest.
Proof.
  revert prev. induction rest as [| m rest IH]; intros prev H; [reflexivity |].
  cbn [map turns_from filter] in *. destruct (role m); cbn [Role_eqb negb].
  - discriminate.
  - f_equal. eauto.
  - apply andb_prop in H as [_ H]. f_equal. eauto.
Qed.

(** [getMessageCount] counts every message but the first: after any sequence
    of operations it is the length of the log minus one. *)
Theorem getMessageCount_all_but_system ops :
  S (getMessageCount (run ops)) = length (conversationHistory (run ops)).
Proof.
  destruct (run_shape ops) as (sys & rest & Hh & Hr & Ht).
  unfold getMessageCount. rewrite Hh. cbn [filter]. rewrite Hr.
  cbn [Role_eqb negb length]. now rewrite (turns_from_no_system _ _ Ht).
Qed.

Lemma getLastResponse_user_last ag ag' u :
  conversationHistory ag' = conversationHistory ag ++ [u] -> role u = user ->
  getLastResponse ag' = getLastResponse ag.
Proof.
  intros H Hu. unfold getLastResponse. rewrite H, rev_app_distr. cbn [rev app find].
  now rewrite Hu.
Qed.

(** [getLastResponse] after a streamed turn: the accumulated reply when the
    turn was committed, and what it was before the turn otherwise (failure,
    or an empty reply). *)
Theorem getLastResponse_after_sendStream ag userMessage chunks fin :
  allocated ag ->
  getLastResponse (agent_after (sendStream ag userMessage chunks fin)) =
    match fin with
    | Completed => if nonempty (concat chunks) then concat chunks else getLastResponse ag
    | Threw _ | Closed => getLastResponse ag
    end.
Proof.
  intros Hal. pose proof (sendStream_history userMessage chunks fin Hal) as H.
  cbv zeta in H. destruct fin.
  - destruct (nonempty (concat chunks)) eqn:E.
    + unfold getLastResponse. rewrite H, rev_app_distr. reflexivity.
    + eapply getLastResponse_user_last; [exact H | reflexivity].
  - unfold getLastResponse. now rewrite H.
  - unfold getLastResponse. now rewrite H.
Qed.

Lemma getLastResponse_after_sendStream_witness :
  let ag := run [OpSend (lit "hello") (inr (lit "hi"))] in
  allocated ag /\
  getLastResponse ag = lit "hi" /\
  getLastResponse (agent_after (sendStream ag (lit "more") [lit "Su"; lit "re"] Completed))
    = lit "Sure" /\
  getLastResponse (agent_after (sendStream ag (lit "more") [lit "Su"] Closed)) = lit "hi".
Proof.
  intros ag.
  assert (Hal : allocated ag) by (unfold allocated; simpl; repeat constructor).
  split; [exact Hal |]. split; [reflexivity |]. split.
  - exact (getLastResponse_after_sendStream (lit "more") [lit "Su"; lit "re"] Completed Hal).
  - exact (getLastResponse_after_sendStream (lit "more") [lit "Su"] Closed Hal).
Defined.

(** [updateSystemPrompt] replaces the addition made by an earlier call: after
    any sequence of operations, two calls in a row leave what the second
    alone leaves. *)
Theorem updateSystemPrompt_replaces ops a b :
  updateSystemPrompt (updateSystemPrompt (run ops) a) b = updateSystemPrompt (run ops) b /\
  exists sys rest,
    conversationHistory (updateSystemPrompt (run ops) b) = sys :: rest /\
    content sys = SYSTEM_PROMPT ++ [nl; nl] ++ b.
Proof.
  destruct (run_shape ops) as (sys & rest & Hh & Hr & _).
  unfold updateSystemPrompt. rewrite Hh, Hr. cbn. eauto.
Qed.

End ConversationQueries.

(** ** More on the transport client *)

Section StreamLines.

Import Api.

Context {R : Runtime}.

Lemma split_line sep line rest :
  ~ In sep line -> split sep (line ++ sep :: rest) = line :: split sep rest.
Proof.
  induction line as [| c line IH]; intros Hno; cbn [app split].
  - now rewrite Ascii.eqb_refl.
  - destruct (Ascii.eqb c sep) eqn:E.
    + apply Ascii.eqb_eq in E. subst c. exfalso. apply Hno. now left.
    + rewrite IH; [reflexivity |]. intros H. apply Hno. now right.
Qed.

(** Splitting what [join_lines] joined gives the lines back. *)
Lemma split_join_lines lines rest :
  Forall (fun line => ~ In nl line) lines ->
  split nl (join_lines lines ++ rest) = lines ++ split nl rest.
Proof.
  induction 1 as [| line lines Hl _ IH]; [reflexivity |].
  unfold join_lines in *. cbn [map concat app].
  rewrite <- !app_assoc. cbn [app]. now rewrite (@split_line nl line _ Hl), IH.
Qed.

(** The stream of a body whose reads all succeed is decided by the decoded
    text of all its bytes. *)
Lemma chatStream_text (chunks : list (list byte)) :
  chatStream (streaming (map Chunk chunks))
    = stream_of_text (snd (decode decoder_new (concat chunks))).
Proof.
  unfold chatStream, streaming. cbn [ok body negb].
  assert (H : read_loop [] decoder_new (map Chunk chunks)
              = read_loop [] decoder_new [Chunk (concat chunks)]).
  { destruct chunks as [| c cs]; [apply read_loop_no_chunk | apply read_loop_chunks]. }
  rewrite H. cbn [read_loop app]. unfold stream_of_text.
  destruct (decode decoder_new (concat chunks)) as [d' text]. cbn [snd].
  now destruct (process_lines _) as [ys [e |]].
Qed.

Lemma process_lines_truthy lines :
  Forall (fun v => truthy v = true) (fst (process_lines lines)).
Proof.
  induction lines as [| line lines IH]; cbn [process_lines fst]; [constructor |].
  destruct (process_line line) eqn:E; cbn [fst]; try constructor; auto.
  destruct (process_lines lines) as [ys e]. cbn [fst] in *. constructor; auto.
  revert E. unfold process_line.
  repeat match goal with
         | |- context [if ?b then _ else _] => destruct b eqn:?
         | |- context [match JSON_parse ?x with _ => _ end] => destruct (JSON_parse x)
         end; intros [= <-]; assumption || discriminate.
Qed.

Lemma process_rest_truthy buffer :
  Forall (fun v => truthy v = true) (process_rest buffer).
Proof.
  unfold process_rest.
  repeat match goal with
         | |- context [if ?b then _ else _] => destruct b eqn:?
         | |- context [match JSON_parse ?x with _ => _ end] => destruct (JSON_parse x)
         end; repeat constructor; assumption.
Qed.

Lemma read_loop_truthy reads : forall buffer d,
  Forall (fun v => truthy v = true) (fst (read_loop buffer d reads)).
Proof.
  induction reads as [| [bytes | e] reads IH]; intros buffer d; cbn [read_loop fst].
  - apply process_rest_truthy.
  - destruct (decode d bytes) as [d' text].
    pose proof (process_lines_truthy (removelast (split nl (buffer ++ text)))) as Hl.
    destruct (process_lines _) as [ys [en |]]; cbn [fst] in *; [exact Hl |].
    specialize (IH (last (split nl (buffer ++ text)) []) d').
    destruct (read_loop _ d' reads) as [ys' en']. cbn [fst] in *.
    apply Forall_app. now split.
  - constructor.
Qed.

(** Every delta [chatStream] yields is truthy: it never yields an empty
    string, [null] or [undefined], whatever the server sends and however the
    stream ends. *)
Theorem chatStream_yields_truthy (f : Fetch) :
  Forall (fun v => truthy v = true) (fst (chatStream f)).
Proof.
  unfold chatStream. destruct f as [r | e]; [| constructor].
  destruct (negb (ok r)); [constructor |].
  destruct (body r) as [reads |]; [| constructor].
  apply read_loop_truthy.
Qed.

Lemma process_lines_failed lines ys e :
  process_lines lines = (ys, Some (Failed e)) ->
  exists line, In line lines /\ process_line line = Throw e.
Proof.
  revert ys. induction lines as [| line lines IH]; intros ys; cbn [process_lines].
  - discriminate.
  - destruct (process_line line) eqn:E.
    + intros H. destruct (IH _ H) as (l & Hin & Hl). exists l. split; [now right | exact Hl].
    + destruct (process_lines lines) as [ys' en] eqn:E'. intros [= <- ->].
      destruct (IH _ eq_refl) as (l & Hin & Hl). exists l. split; [now right | exact Hl].
    + discriminate.
    + intros [= <- <-]. exists line. split; [now left | exact E].
Qed.

(** A stream whose reads all succeed fails only through a line that ends in a
    newline: some complete line of the decoded text throws the error.  What
    follows the last newline never makes the stream fail. *)
Theorem chatStream_fails_on_complete_line (chunks : list (list byte)) ys e :
  chatStream (streaming (map Chunk chunks)) = (ys, Failed e) ->
  exists line,
    In line (removelast (split nl (snd (decode decoder_new (concat chunks)))))
    /\ process_line line = Throw e.
Proof.
  rewrite chatStream_text. unfold stream_of_text.
  destruct (process_lines _) as [ys' [en |]] eqn:E; [| discriminate].
  intros [= <- ->]. eapply process_lines_failed. exact E.
Qed.

Lemma process_line_sentinel : process_line (lit "data: [DONE]") = Return.
Proof. reflexivity. Qed.

(** The sentinel line ends the stream: when the lines before it neither fail
    nor end the stream, the generator returns after their deltas, whatever
    follows the sentinel (an error envelope included) and however the bytes
    are cut into chunks. *)
Theorem sentinel_ends_stream (chunks : list (list byte)) before ys after :
  Forall (fun line => ~ In nl line) before ->
  process_lines before = (ys, None) ->
  snd (decode decoder_new (concat chunks))
    = join_lines before ++ lit "data: [DONE]" ++ nl :: after ->
  chatStream (streaming (map Chunk chunks)) = (ys, Finished).
Proof.
  intros Hb Hl Ht. rewrite chatStream_text, Ht. unfold stream_of_text.
  rewrite split_join_lines by exact Hb.
  rewrite (@split_line nl (lit "data: [DONE]") after)
    by (cbn; intros H; repeat (destruct H as [H | H]; [discriminate |]); exact H).
  rewrite removelast_app by apply not_eq_sym, nil_cons.
  rewrite process_lines_app, Hl.
  pose proof (split_nonempty nl after) as Hne.
  destruct (split nl after) as [| seg segs]; [congruence |].
  cbn [removelast]. destruct segs; cbn [process_lines];
    rewrite process_line_sentinel; now rewrite app_nil_r.
Qed.

(** A line that, once trimmed, starts neither with the [data: ] prefix nor
    with a brace (a blank line, a comment, an [event:] line) is ignored: the
    loop yields and ends as if the line were not there. *)
Theorem other_lines_ignored before line after :
  startsWith (lit "data: ") (trim line) = false ->
  startsWith (lit "{") (trim line) = false ->
  process_lines (before ++ line :: after) = process_lines (before ++ after).
Proof.
  intros Hd Hb.
  assert (Hl : process_line line = Skip).
  { unfold process_line. rewrite Hd, Hb. now destruct (negb (nonempty (trim line))). }
  rewrite !process_lines_app. cbn [process_lines]. now rewrite Hl.
Qed.

End StreamLines.

Section StreamLinesRuns.

Import Api Json.

Lemma chatStream_fails_on_complete_line_witness :
  let chunks := [bytes (hi ++ [nl]); bytes (firstn 9 envelope);
                 bytes (skipn 9 envelope ++ nl :: hi)] in
  chatStream (streaming (map Chunk chunks))
    = ([JString (lit "Hi")], Failed (Error (lit "boom"))) /\
  exists line,
    In line (removelast (split nl (snd (decode decoder_new (concat chunks)))))
    /\ process_line line = Throw (Error (lit "boom")).
Proof.
  intros chunks. split; [reflexivity |].
  exact (@chatStream_fails_on_complete_line runtime chunks
           [JString (lit "Hi")] (Error (lit "boom")) eq_refl).
Defined.

Lemma sentinel_ends_stream_witness :
  let text := join_lines [hi; []] ++ lit "data: [DONE]" ++ nl :: envelope ++ nl :: hi in
  let chunks := [bytes (firstn 30 text); bytes (skipn 30 text)] in
  Forall (fun line => ~ In nl line) [hi; []] /\
  process_lines [hi; []] = ([JString (lit "Hi")], None) /\
  snd (decode decoder_new (concat chunks))
    = join_lines [hi; []] ++ lit "data: [DONE]" ++ nl :: envelope ++ nl :: hi /\
  chatStream (streaming (map Chunk chunks)) = ([JString (lit "Hi")], Finished).
Proof.
  intros text chunks.
  assert (Hb : Forall (fun line => ~ In nl line) [hi; []]).
  { repeat constructor; cbn; intros H;
      repeat (destruct H as [H | H]; [discriminate |]); exact H. }
  split; [exact Hb |]. split; [reflexivity |]. split; [reflexivity |].
  exact (@sentinel_ends_stream runtime chunks [hi; []] [JString (lit "Hi")]
           (envelope ++ nl :: hi) Hb eq_refl eq_refl).
Defined.

Lemma other_lines_ignored_witness :
  let comment := lit ": keep-alive" in
  startsWith (lit "data: ") (trim comment) = false /\
  startsWith (lit "{") (trim comment) = false /\
  process_lines ([hi] ++ comment :: [envelope])
    = ([JString (lit "Hi")], Some (Failed (Error (lit "boom")))).
Proof.
  intros comment. split; [reflexivity |]. split; [reflexivity |].
  rewrite (@other_lines_ignored runtime [hi] comment [envelope] eq_refl eq_refl).
  reflexivity.
Defined.

End StreamLinesRuns.

(** ** More on the block extractor *)

Section ExtractorWindows.

Import Extractor.

Lemma indexOf_occurrence p a b : Js.indexOf p (a ++ p ++ b) <> None.
Proof.
  induction a as [| c a IH]; cbn [app].
  - destruct (p ++ b) eqn:E; cbn [Js.indexOf]; rewrite <- E, startsWith_app; discriminate.
  - cbn [Js.indexOf]. destruct (startsWith p (c :: a ++ p ++ b)); [discriminate |].
    destruct (Js.indexOf p (a ++ p ++ b)); [discriminate | congruence].
Qed.

Lemma indexOf_Some p s i :
  Js.indexOf p s = Some i -> s = firstn i s ++ p ++ skipn (i + length p) s.
Proof.
  revert i. induction s as [| c s IH]; intros i; cbn [Js.indexOf].
  - destruct (startsWith p []) eqn:E; [| discriminate].
    intros [= <-]. now apply startsWith_inv in E.
  - destruct (startsWith p (c :: s)) eqn:E.
    + intros [= <-]. now apply startsWith_inv in E.
    + destruct (Js.indexOf p s) as [k |]; [| discriminate].
      intros [= <-]. cbn [firstn skipn app Nat.add]. f_equal. now apply IH.
Qed.

(** Outside a block, [process] opens one exactly when the buffer with the new
    chunk contains a well-formed opening; the file name is then the trimmed
    path of an opening, the body starts empty, and the buffer keeps what
    follows that opening. *)
Theorem process_opens_on_opening P ex c :
  inBlock ex = false ->
  (inBlock (process P ex c) = true <-> has_opening (buffer ex ++ c)) /\
  (inBlock (process P ex c) = true ->
   exists pre tag path,
     well_formed tag path /\
     buffer ex ++ c = pre ++ opening tag path ++ buffer (process P ex c) /\
     filename (process P ex c) = trim path /\
     code (process P ex c) = [] /\
     extractedFiles (process P ex c) = extractedFiles ex).
Proof.
  intros Hin.
  assert (Hp : process P ex c = scan (with_buffer ex (buffer ex ++ c)))
    by (unfold process; cbn [with_buffer inBlock]; now rewrite Hin).
  rewrite Hp. unfold scan. cbn [with_buffer buffer extractedFiles dir inBlock].
  destruct (regexp_match (buffer ex ++ c)) as [m |] eqn:E.
  - destruct (regexp_match_sound _ E) as (pre & post & Hs & Hwf & Hm0).
    cbn [inBlock filename code extractedFiles buffer]. split.
    + split; [intros _ | reflexivity]. now exists pre, (m1 m), (m2 m), post.
    + intros _. rewrite Hm0.
      destruct (Js.indexOf (opening (m1 m) (m2 m)) (buffer ex ++ c)) as [i |] eqn:Ei.
      * exists (firstn i (buffer ex ++ c)), (m1 m), (m2 m).
        split; [exact Hwf |]. split; [now apply indexOf_Some |]. auto.
      * exfalso. rewrite Hs in Ei. now apply indexOf_occurrence in Ei.
  - assert (Hno : ~ has_opening (buffer ex ++ c)) by now apply regexp_match_None.
    assert (Hout : inBlock (if 200 <? length (buffer ex ++ c)
                            then with_buffer (with_buffer ex (buffer ex ++ c))
                                   (slice_last 200 (buffer ex ++ c))
                            else with_buffer ex (buffer ex ++ c)) = false)
      by (destruct (200 <? length (buffer ex ++ c)); exact Hin).
    rewrite Hout. split; [split; [discriminate | tauto] | discriminate].
Qed.

Lemma process_opens_on_opening_witness :
  let ex := feed posix (create (lit "/w")) [lit "Sure:" ++ nl :: lit "```ty"] in
  let c := lit "pescript: src/a.ts " ++ nl :: lit "let x" in
  inBlock ex = false /\
  inBlock (process posix ex c) = true /\
  filename (process posix ex c) = lit "src/a.ts" /\
  buffer (process posix ex c) = lit "let x" /\
  has_opening (buffer ex ++ c).
Proof.
  intros ex c. split; [reflexivity |]. split; [reflexivity |].
  split; [reflexivity |]. split; [reflexivity |].
  exact (proj1 (proj1 (@process_opens_on_opening posix ex c eq_refl)) eq_refl).
Defined.

Lemma length_slice_last n s : length (slice_last n s) <= n.
Proof. unfold slice_last. rewrite length_skipn. lia. Qed.

Lemma scan_window ex :
  inBlock (scan ex) = false -> length (buffer (scan ex)) <= 200.
Proof.
  unfold scan. destruct (regexp_match (buffer ex)); [discriminate |].
  destruct (200 <? length (buffer ex)) eqn:E; intros _.
  - apply length_slice_last.
  - now apply Nat.ltb_ge in E.
Qed.

(** The look-back window: whenever [process] leaves the extractor outside a
    block, it retains at most 200 code units, whatever the size of the
    chunk. *)
Theorem scanning_window_bounded P ex c :
  inBlock (process P ex c) = false ->
  length (buffer (process P ex c)) <= 200.
Proof.
  unfold process. cbn [with_buffer inBlock buffer].
  destruct (inBlock ex) eqn:Hin; cbn [negb]; [| apply scan_window].
  destruct (Js.indexOf fence (buffer ex ++ c)) as [endIndex |].
  - cbn [buffer]. destruct (0 <? length (skipn (endIndex + 3) (buffer ex ++ c))) eqn:E.
    + apply scan_window.
    + apply Nat.ltb_ge in E. cbn [buffer]. lia.
  - destruct (10 <? length (buffer ex ++ c)); cbn [inBlock with_buffer];
      rewrite ?Hin; discriminate.
Qed.

Lemma scanning_window_bounded_witness :
  let c := repeat "x"%char 500 in
  inBlock (process posix (create (lit "/w")) c) = false /\
  length (buffer (process posix (create (lit "/w")) c)) <= 200.
Proof.
  intros c. split; [reflexivity |].
  exact (@scanning_window_bounded posix (create (lit "/w")) c eq_refl).
Defined.

(** Inside a block, a chunk that completes no closing fence leaves at most
    ten code units in the buffer; the rest is committed to the body. *)
Theorem capturing_tail_bounded P ex c :
  inBlock ex = true -> Js.indexOf fence (buffer ex ++ c) = None ->
  length (buffer (process P ex c)) <= 10 /\
  code (process P ex c) ++ buffer (process P ex c) = code ex ++ buffer ex ++ c.
Proof.
  intros Hin Hno. split; [| now apply process_capturing].
  unfold process. cbn [with_buffer inBlock buffer]. rewrite Hin, Hno. cbn [negb].
  destruct (10 <? length (buffer ex ++ c)) eqn:E; cbn [buffer].
  - apply length_slice_last.
  - now apply Nat.ltb_ge in E.
Qed.

Lemma capturing_tail_bounded_witness :
  let ex := feed posix (create (lit "/w")) [lit "```py:a.py" ++ [nl]] in
  let c := lit "print('a rather long line of code')" in
  inBlock ex = true /\ Js.indexOf fence (buffer ex ++ c) = None /\
  buffer (process posix ex c) = lit " of code')" /\
  length (buffer (process posix ex c)) <= 10.
Proof.
  intros ex c. split; [reflexivity |]. split; [reflexivity |]. split.
  - reflexivity.
  - exact (proj1 (@capturing_tail_bounded posix ex c eq_refl eq_refl)).
Defined.

End ExtractorWindows.

Section ExtractorBlocks.

Import Extractor.






(** An unterminated block is flushed whenever at least one chunk arrived
    inside it and the body received so far is longer than the ten code units
    the buffer retains: [flush] then emits one artifact holding all of it. *)
Theorem unterminated_long_block_flushed P ex chunks pending :
  inBlock ex = true ->
  Js.indexOf fence (buffer ex ++ concat chunks) = None ->
  chunks <> [] ->
  10 < length (buffer ex ++ concat chunks) ->
  fst (flush P (feed P ex chunks) pending) =
    pending ++ extractedFiles ex
      ++ [artifact P ex (code ex ++ buffer ex ++ concat chunks)].
Proof.
  intros Hin Hno Hne Hlen.
  destruct (feed_capturing P chunks ex Hin Hno) as (H1 & H2 & _ & H3 & H4 & H5).
  pose proof (@feed_commits_long_body P ex chunks Hin Hno Hne Hlen) as Hcode.
  unfold flush, flushed. cbn [fst]. rewrite H1, Hcode. cbn [andb].
  unfold artifact. now rewrite H2, H3, H4, H5.
Qed.

Lemma unterminated_long_block_flushed_witness :
  let ex := feed posix (create (lit "/w")) [lit "```py:a.py" ++ [nl]] in
  let chunks := [lit "x = 1" ++ [nl]; lit "y = 2" ++ [nl]] in
  inBlock ex = true /\
  Js.indexOf fence (buffer ex ++ concat chunks) = None /\
  chunks <> [] /\ 10 < length (buffer ex ++ concat chunks) /\
  map named (fst (flush posix (feed posix ex chunks) []))
    = [ (lit "a.py", lit "x = 1" ++ nl :: lit "y = 2") ].
Proof.
  intros ex chunks.
  assert (Hne : chunks <> []) by discriminate.
  assert (Hlen : 10 < length (buffer ex ++ concat chunks)) by (vm_compute; lia).
  split; [reflexivity |]. split; [reflexivity |]. split; [exact Hne |].
  split; [exact Hlen |].
  apply (eq_trans (f_equal (map named)
           (@unterminated_long_block_flushed posix ex chunks [] eq_refl eq_refl Hne Hlen))).
  reflexivity.
Defined.

Lemma scan_files ex : extractedFiles (scan ex) = extractedFiles ex.
Proof.
  unfold scan. destruct (regexp_match (buffer ex)); [reflexivity |].
  now destruct (200 <? length (buffer ex)).
Qed.

Lemma process_files P ex c :
  extractedFiles (process P ex c) = extractedFiles ex \/
  exists body,
    inBlock ex = true /\
    extractedFiles (process P ex c) = extractedFiles ex ++ [artifact P ex body].
Proof.
  unfold process. cbn [with_buffer inBlock buffer code extractedFiles].
  destruct (inBlock ex); cbn [negb]; [| left; now rewrite scan_files].
  destruct (Js.indexOf fence (buffer ex ++ c)) as [endIndex |].
  - right. exists (code ex ++ firstn endIndex (buffer ex ++ c)). split; [reflexivity |].
    destruct (0 <? _); [rewrite scan_files |]; reflexivity.
  - left. now destruct (10 <? length (buffer ex ++ c)).
Qed.

(** One call of [process] never removes an extracted file and adds at most
    one, however many blocks the chunk contains; so a stream of [n] chunks
    leaves at most [n] more files in the extractor. *)
Theorem one_artifact_per_chunk P ex chunks :
  (forall c, exists more,
      extractedFiles (process P ex c) = extractedFiles ex ++ more /\ length more <= 1) /\
  exists more,
    extractedFiles (feed P ex chunks) = extractedFiles ex ++ more /\
    length more <= length chunks.
Proof.
  assert (Hstep : forall ex c, exists more,
             extractedFiles (process P ex c) = extractedFiles ex ++ more /\ length more <= 1).
  { intros ex0 c. destruct (process_files P ex0 c) as [H | (body & _ & H)].
    - exists []. rewrite app_nil_r. auto.
    - exists [artifact P ex0 body]. auto. }
  split; [apply Hstep |].
  revert ex. induction chunks as [| c cs IH]; intros ex.
  - exists []. cbn. now rewrite app_nil_r.
  - cbn [feed fold_left]. fold (feed P (process P ex c) cs).
    destruct (Hstep ex c) as (m1 & H1 & L1). destruct (IH (process P ex c)) as (m2 & H2 & L2).
    exists (m1 ++ m2). rewrite H2, H1, <- app_assoc. split; [reflexivity |].
    rewrite length_app. cbn [length]. lia.
Qed.

End ExtractorBlocks.

Section ExtractorArtifacts.

Import Extractor.

Lemma trimStart_head s :
  match trimStart s with [] => True | c :: _ => is_space c = false end.
Proof.
  induction s as [| c s IH]; cbn [trimStart]; [exact I |].
  destruct (is_space c) eqn:E; [exact IH | exact E].
Qed.

Lemma trimStart_fixed s :
  match s with [] => True | c :: _ => is_space c = false end -> trimStart s = s.
Proof. destruct s as [| c s]; [reflexivity |]. cbn [trimStart]. now intros ->. Qed.

Lemma trimStart_idempotent s : trimStart (trimStart s) = trimStart s.
Proof. apply trimStart_fixed, trimStart_head. Qed.

Lemma trimStart_snoc l x :
  is_space x = false -> exists l', trimStart (l ++ [x]) = l' ++ [x].
Proof.
  intros Hx. induction l as [| c l IH]; cbn [app trimStart].
  - rewrite Hx. now exists [].
  - destruct (is_space c); [exact IH | now exists (c :: l)].
Qed.

Lemma trimEnd_idempotent s : trimEnd (trimEnd s) = trimEnd s.
Proof. unfold trimEnd. now rewrite rev_involutive, trimStart_idempotent. Qed.

Lemma trimEnd_head x t :
  is_space x = false -> exists t', trimEnd (x :: t) = x :: t'.
Proof.
  intros Hx. unfold trimEnd. cbn [rev].
  destruct (@trimStart_snoc (rev t) x Hx) as (l' & ->).
  exists (rev l'). now rewrite rev_app_distr.
Qed.

(** [trim] is idempotent. *)
Lemma trim_idempotent s : trim (trim s) = trim s.
Proof.
  unfold trim. pose proof (trimStart_head s) as Hh.
  destruct (trimStart s) as [| x t] eqn:E; [reflexivity |].
  destruct (@trimEnd_head x t Hh) as (t' & Ht).
  rewrite (trimStart_fixed (trimEnd (x :: t))) by (rewrite Ht; exact Hh).
  apply trimEnd_idempotent.
Qed.

Lemma In_trimStart c s : In c (trimStart s) -> In c s.
Proof.
  induction s as [| x s IH]; cbn [trimStart]; [auto |].
  destruct (is_space x); [intros H; right; auto | auto].
Qed.

Lemma In_trim c s : In c (trim s) -> In c s.
Proof.
  unfold trim, trimEnd. intros H.
  apply In_trimStart. apply in_rev in H. apply In_trimStart in H. now apply in_rev.
Qed.

(** What every recorded file name and every extracted file satisfy. *)
Lemma scan_tidy (Q : PendingFile.t -> Prop) ex :
  Forall Q (extractedFiles ex) ->
  trim (filename ex) = filename ex /\ ~ In nl (filename ex) ->
  Forall Q (extractedFiles (scan ex)) /\
  trim (filename (scan ex)) = filename (scan ex) /\ ~ In nl (filename (scan ex)).
Proof.
  intros Hf Hn. unfold scan. destruct (regexp_match (buffer ex)) as [m |] eqn:E.
  - cbn [extractedFiles filename]. split; [exact Hf |]. split; [apply trim_idempotent |].
    destruct (regexp_match_sound _ E) as (_ & _ & _ & (_ & _ & _ & Hp) & _).
    intros H. apply In_trim in H.
    rewrite forallb_forall in Hp. specialize (Hp _ H).
    unfold not_newline in Hp. now rewrite Ascii.eqb_refl in Hp.
  - destruct (200 <? length (buffer ex)); auto.
Qed.

Lemma process_tidy P ex c :
  let Q := fun f => trim (PendingFile.content f) = PendingFile.content f /\
                    trim (PendingFile.filename f) = PendingFile.filename f /\
                    ~ In nl (PendingFile.filename f) in
  Forall Q (extractedFiles ex) ->
  trim (filename ex) = filename ex /\ ~ In nl (filename ex) ->
  Forall Q (extractedFiles (process P ex c)) /\
  trim (filename (process P ex c)) = filename (process P ex c) /\
  ~ In nl (filename (process P ex c)).
Proof.
  intros Q Hf Hn. unfold process. cbn [with_buffer inBlock buffer code].
  destruct (inBlock ex); cbn [negb]; [| now apply scan_tidy].
  destruct (Js.indexOf fence (buffer ex ++ c)) as [endIndex |].
  - set (ex2 := {| buffer := _; inBlock := false |}).
    assert (H2 : Forall Q (extractedFiles ex2) /\
                 trim (filename ex2) = filename ex2 /\ ~ In nl (filename ex2)).
    { unfold ex2. cbn [extractedFiles filename with_buffer dir]. split; [| split; [reflexivity | auto]].
      apply Forall_app. split; [exact Hf |]. constructor; [| constructor].
      unfold Q, artifact. cbn. split; [apply trim_idempotent | exact Hn]. }
    destruct (0 <? _); [apply scan_tidy; tauto | exact H2].
  - destruct (10 <? length (buffer ex ++ c)); cbn; auto.
Qed.

(** Every artifact the extractor hands over has a content and a file name
    without leading or trailing white space ([trim] leaves them unchanged),
    and a file name without a newline. *)
Theorem artifacts_are_trimmed P d chunks :
  Forall (fun f => trim (PendingFile.content f) = PendingFile.content f /\
                   trim (PendingFile.filename f) = PendingFile.filename f /\
                   ~ In nl (PendingFile.filename f))
         (extract P d chunks).
Proof.
  set (Q := fun f => _).
  assert (H : forall ex,
             Forall Q (extractedFiles ex) ->
             trim (filename ex) = filename ex /\ ~ In nl (filename ex) ->
             Forall Q (extractedFiles (feed P ex chunks)) /\
             trim (filename (feed P ex chunks)) = filename (feed P ex chunks) /\
             ~ In nl (filename (feed P ex chunks))).
  { induction chunks as [| c cs IH]; intros ex Hf Hn; [now split |].
    cbn [feed fold_left]. fold (feed P (process P ex c) cs).
    destruct (@process_tidy P ex c Hf Hn) as [Hf' Hn']. now apply IH. }
  destruct (H (create d)) as [Hf Hn]; [constructor | split; [reflexivity | auto] |].
  unfold extract, flush, flushed. cbn [fst app].
  destruct (inBlock _ && nonempty _); [| exact Hf].
  apply Forall_app. split; [exact Hf |]. constructor; [| constructor].
  unfold Q, artifact. cbn. split; [apply trim_idempotent | exact Hn].
Qed.

End ExtractorArtifacts.

(** ** Handing the files over *)

Section PendingFiles.

Import Materialize.

Lemma loop_skipping auto files :
  loop auto true files =
    {| events := map (fun fw => Skipped (fst fw)) files; autoAcceptAll := auto;
       asked := 0; thrown := None |}.
Proof.
  induction files as [| [file w] rest IH]; [reflexivity |].
  cbn [loop]. rewrite IH. reflexivity.
Qed.

Lemma loop_accepting files :
  Forall (fun fw => read_throws (snd fw) = None) files ->
  loop true false files =
    {| events := map (fun fw => write (fst fw) (snd fw)) files; autoAcceptAll := true;
       asked := 0; thrown := None |}.
Proof.
  induction 1 as [| [file w] rest Hr _ IH]; [reflexivity |].
  cbn [loop snd] in *. rewrite Hr, IH. reflexivity.
Qed.

(** Answering s (in any case, with any white space around it) to the
    question about a file skips that file and every file after it: nothing
    more is written, read or asked. *)
Theorem answer_s_skips_the_rest file w rest :
  read_throws w = None ->
  toLowerCase (trim (typed w)) = lit "s" ->
  loop false false ((file, w) :: rest) =
    {| events := SkippedRemaining file :: map (fun fw => Skipped (fst fw)) rest;
       autoAcceptAll := false; asked := 1; thrown := None |}.
Proof.
  intros Hr Hs. cbn [loop negb]. rewrite Hr, Hs.
  change (str_eqb (lit "s") (lit "n")) with false.
  change (str_eqb (lit "s") (lit "a")) with false.
  change (str_eqb (lit "s") (lit "s")) with true.
  cbv iota. rewrite loop_skipping. reflexivity.
Qed.

(** Answering a to the question about a file writes that file and every file
    after it without another question, and leaves auto-accept switched on
    (as long as no read of an existing file throws). *)
Theorem answer_a_accepts_the_rest file w rest :
  read_throws w = None ->
  toLowerCase (trim (typed w)) = lit "a" ->
  Forall (fun fw => read_throws (snd fw) = None) rest ->
  loop false false ((file, w) :: rest) =
    {| events := write file w :: map (fun fw => write (fst fw) (snd fw)) rest;
       autoAcceptAll := true; asked := 1; thrown := None |}.
Proof.
  intros Hr Ha Hrest. cbn [loop negb]. rewrite Hr, Ha.
  change (str_eqb (lit "a") (lit "n")) with false.
  change (str_eqb (lit "a") (lit "a")) with true.
  change (str_eqb (lit "a") (lit "s")) with false.
  cbv iota. rewrite (loop_accepting Hrest). reflexivity.
Qed.

Lemma loop_accounts auto skip files :
  match thrown (loop auto skip files) with
  | None => map event_file (events (loop auto skip files)) = map fst files
  | Some _ =>
      exists n, n < length files /\
        map event_file (events (loop auto skip files)) = firstn n (map fst files)
  end.
Proof.
  revert auto skip. induction files as [| [file w] rest IH]; intros auto skip; [reflexivity |].
  assert (Hstep : forall ev q a k,
             event_file ev = file ->
             match thrown (and_then ev q (loop a k rest)) with
             | None => map event_file (events (and_then ev q (loop a k rest)))
                       = map fst ((file, w) :: rest)
             | Some _ => exists n, n < length ((file, w) :: rest) /\
                 map event_file (events (and_then ev q (loop a k rest)))
                 = firstn n (map fst ((file, w) :: rest))
             end).
  { intros ev q a k Hev. specialize (IH a k). cbn [and_then thrown events map fst].
    destruct (thrown (loop a k rest)).
    - destruct IH as (n & Hn & IH). exists (S n). cbn [length firstn].
      split; [lia |]. now rewrite Hev, IH.
    - now rewrite Hev, IH. }
  cbn [loop]. destruct skip; [now apply Hstep |].
  destruct (read_throws w).
  - cbn [thrown events map]. exists 0. cbn. split; [lia | reflexivity].
  - destruct (negb auto); [| apply Hstep; unfold write; now destruct (write_throws w)].
    destruct (str_eqb _ (lit "n")); [now apply Hstep |].
    destruct (str_eqb _ (lit "s")); apply Hstep; [reflexivity |].
    unfold write. now destruct (write_throws w).
Qed.

(** [processPendingFiles] empties the pending list, and accounts for every
    pending file once, in order, unless the read of an existing file throws:
    then the files not yet handled are in neither list. *)
Theorem pending_files_accounted auto pending :
  fst (processPendingFiles auto pending) = [] /\
  match thrown (snd (processPendingFiles auto pending)) with
  | None =>
      map event_file (events (snd (processPendingFiles auto pending))) = map fst pending
  | Some _ =>
      exists n, n < length pending /\
        map event_file (events (snd (processPendingFiles auto pending)))
          = firstn n (map fst pending)
  end.
Proof.
  destruct pending as [| fw rest]; [now split |].
  split; [reflexivity |]. apply loop_accounts.
Qed.

End PendingFiles.

Section PendingFilesRuns.

Import Materialize.

Lemma answer_s_skips_the_rest_witness :
  let f := {| PendingFile.filename := lit "a.py"; PendingFile.content := lit "x";
              PendingFile.fullPath := lit "/w/a.py"; PendingFile.isNew := true |} in
  let g := {| PendingFile.filename := lit "b.py"; PendingFile.content := lit "y";
              PendingFile.fullPath := lit "/w/b.py"; PendingFile.isNew := true |} in
  let w := {| read_throws := None; typed := lit " S "; write_throws := None |} in
  read_throws w = None /\ toLowerCase (trim (typed w)) = lit "s" /\
  events (loop false false [(f, w); (g, w)]) = [SkippedRemaining f; Skipped g].
Proof.
  intros f g w. split; [reflexivity |]. split; [reflexivity |].
  exact (f_equal events (@answer_s_skips_the_rest f w [(g, w)] eq_refl eq_refl)).
Defined.

Lemma answer_a_accepts_the_rest_witness :
  let f := {| PendingFile.filename := lit "a.py"; PendingFile.content := lit "x";
              PendingFile.fullPath := lit "/w/a.py"; PendingFile.isNew := true |} in
  let g := {| PendingFile.filename := lit "b.py"; PendingFile.content := lit "y";
              PendingFile.fullPath := lit "/w/b.py"; PendingFile.isNew := true |} in
  let w := {| read_throws := None; typed := lit "A"; write_throws := None |} in
  let n := {| read_throws := None; typed := lit "n"; write_throws := None |} in
  read_throws w = None /\ toLowerCase (trim (typed w)) = lit "a" /\
  Forall (fun fw => read_throws (snd fw) = None) [(g, n)] /\
  events (loop false false [(f, w); (g, n)]) = [Saved f; Saved g] /\
  asked (loop false false [(f, w); (g, n)]) = 1.
Proof.
  intros f g w n.
  assert (Hrest : Forall (fun fw => read_throws (snd fw) = None) [(g, n)])
    by (repeat constructor).
  split; [reflexivity |]. split; [reflexivity |]. split; [exact Hrest |].
  pose proof (@answer_a_accepts_the_rest f w [(g, n)] eq_refl eq_refl Hrest) as H.
  split; [exact (f_equal events H) | exact (f_equal asked H)].
Defined.

End PendingFilesRuns.

(** ** Commands *)

Section CommandLine.

Import Materialize Commands.

Lemma word_head w : word w -> exists c w', w = c :: w' /\ is_plain c = true.
Proof.
  intros [Hne Hall]. destruct w as [| c w']; [congruence |].
  cbn in Hall. apply andb_prop in Hall as [Hc _]. now exists c, w'.
Qed.

Lemma plain_not_space c : is_plain c = true -> is_space c = false.
Proof. unfold is_plain. intros H. apply andb_prop in H as [H _]. now apply negb_true_iff. Qed.

Lemma plain_not_quote c : is_plain c = true -> is_quote c = false.
Proof. unfold is_plain. intros H. apply andb_prop in H as [_ H]. now apply negb_true_iff. Qed.

Lemma piece_boundary rest : boundary rest -> piece rest = None.
Proof. intros [-> | (r & ->)]; reflexivity. Qed.

Lemma piece_word w rest : word w -> boundary rest -> piece (w ++ rest) = Some (w, rest).
Proof.
  intros Hw Hb. destruct (word_head Hw) as (c & w' & -> & Hc).
  cbn [app piece]. rewrite Hc. f_equal.
  apply (span_app is_plain (c :: w') rest); [apply Hw |].
  destruct Hb as [-> | (r & ->)]; [exact I | reflexivity].
Qed.

Lemma token_single fuel s p rest :
  piece s = Some (p, rest) -> boundary rest -> token (S fuel) s = Some (p, rest).
Proof.
  intros Hp Hb. cbn [token]. rewrite Hp.
  destruct fuel as [| fuel]; [reflexivity |].
  cbn [token]. now rewrite (piece_boundary Hb).
Qed.

Lemma match_all_token fuel c s t rest :
  token (length (c :: s)) (c :: s) = Some (t, rest) ->
  match_all (S fuel) (c :: s) = t :: match_all fuel rest.
Proof. intros H. cbn [match_all]. now rewrite H. Qed.

Lemma match_all_space fuel s :
  match_all (S fuel) (" "%char :: s) = match_all fuel s.
Proof. reflexivity. Qed.

Lemma match_all_nil fuel : match_all fuel [] = [].
Proof. now destruct fuel. Qed.

Lemma spaced_boundary ws : boundary (spaced ws).
Proof. destruct ws as [| w ws]; [now left | right]. now exists (w ++ spaced ws). Qed.

Lemma match_all_word fuel w rest :
  word w -> boundary rest ->
  match_all (S fuel) (w ++ rest) = w :: match_all fuel rest.
Proof.
  intros Hw Hb. destruct (word_head Hw) as (c & w' & E & _).
  pose proof (piece_word Hw Hb) as Hp. rewrite E in *. cbn [app] in *.
  apply match_all_token. cbn [length]. now apply token_single.
Qed.

Lemma match_all_spaced ws : forall fuel,
  Forall word ws -> length (spaced ws) <= fuel -> match_all fuel (spaced ws) = ws.
Proof.
  induction ws as [| w ws IH]; intros fuel Hws Hlen; [apply match_all_nil |].
  inversion Hws as [| ? ? Hw Hws']; subst.
  destruct (word_head Hw) as (c & w' & E & _).
  change (spaced (w :: ws)) with (" "%char :: w ++ spaced ws) in *.
  cbn [length] in Hlen. rewrite length_app, E in Hlen. cbn [length] in Hlen.
  destruct fuel as [| [| fuel]]; try lia.
  rewrite match_all_space, (match_all_word _ Hw (spaced_boundary ws)).
  f_equal. apply IH; [exact Hws' | lia].
Qed.

Lemma unquote_word w : word w -> unquote w = w.
Proof.
  intros Hw. destruct (word_head Hw) as (c & w' & -> & Hc).
  apply plain_not_quote in Hc. unfold is_quote in Hc.
  apply orb_false_iff in Hc as [Hd Hs]. unfold unquote. cbn [startsWith lit list_ascii_of_string].
  rewrite Ascii.eqb_sym in Hd. rewrite Ascii.eqb_sym in Hs. now rewrite Hd, Hs.
Qed.

Lemma trimEnd_snoc a x : is_space x = false -> trimEnd (a ++ [x]) = a ++ [x].
Proof.
  intros Hx. unfold trimEnd. rewrite rev_app_distr. cbn [rev app trimStart].
  rewrite Hx. cbn [rev]. now rewrite rev_involutive.
Qed.

Lemma trim_fixed c s x :
  is_space c = false -> is_space x = false -> trim (c :: s ++ [x]) = c :: s ++ [x].
Proof.
  intros Hc Hx. unfold trim. cbn [trimStart]. rewrite Hc.
  apply (@trimEnd_snoc (c :: s) x Hx).
Qed.

(** A text that starts with a word and ends with a word is its own trim. *)
Lemma trim_words cmd ws :
  word cmd -> Forall word ws -> trim (cmd ++ spaced ws) = cmd ++ spaced ws.
Proof.
  intros Hc Hws.
  assert (Hlast : exists a w, word w /\ cmd ++ spaced ws = a ++ w).
  { destruct ws as [| w0 ws0]; [exists [], cmd; now rewrite app_nil_r |].
    destruct (@exists_last _ (w0 :: ws0)) as (ws' & w & E); [discriminate |].
    rewrite E in *. apply Forall_app in Hws as [_ Hw]. inversion Hw; subst.
    exists (cmd ++ spaced ws' ++ [" "%char]), w. split; [assumption |].
    unfold spaced. rewrite map_app, concat_app. cbn [map concat].
    rewrite app_nil_r, <- !app_assoc. reflexivity. }
  destruct Hlast as (a & w & Hw & E).
  destruct Hw as [Hne Hall].
  destruct (@exists_last _ w Hne) as (w' & x & ->).
  rewrite forallb_app in Hall. apply andb_prop in Hall as [_ Hx]. cbn in Hx.
  rewrite andb_true_r in Hx. apply plain_not_space in Hx.
  destruct (word_head Hc) as (c & cmd' & Ec & Hpc). apply plain_not_space in Hpc.
  unfold trim. rewrite (trimStart_fixed (cmd ++ spaced ws))
    by (rewrite Ec; exact Hpc).
  rewrite E, app_assoc. now apply trimEnd_snoc.
Qed.

(** A command line of words separated by single spaces parses into exactly
    those words: the first one, resolved, is the command, and the others are
    the arguments. *)
Theorem parseCommand_words cmd ws :
  word cmd -> Forall word ws ->
  parseCommand (cmd ++ spaced ws) =
    {| command := resolveCommand cmd; args := ws; raw := cmd ++ spaced ws |}.
Proof.
  intros Hc Hws. unfold parseCommand. rewrite (trim_words Hc Hws).
  destruct (word_head Hc) as (c & cmd' & Ec & _).
  assert (Hm : match_all (length (cmd ++ spaced ws)) (cmd ++ spaced ws) = cmd :: ws).
  { rewrite length_app, Ec. cbn [length Nat.add]. rewrite <- Ec.
    rewrite (match_all_word _ Hc (spaced_boundary ws)). f_equal.
    apply match_all_spaced; [exact Hws | lia]. }
  rewrite Hm. cbn [map hd tl]. rewrite (unquote_word Hc). f_equal.
  clear Hm. induction Hws as [| w ws Hw _ IH]; [reflexivity |].
  cbn [map]. now rewrite (unquote_word Hw), IH.
Qed.

Lemma parseCommand_words_witness :
  word (lit "/SH") /\ Forall word [lit "ls"; lit "-la"; lit "src/"] /\
  parseCommand (lit "/SH ls -la src/") =
    {| command := Name (lit "/sh"); args := [lit "ls"; lit "-la"; lit "src/"];
       raw := lit "/SH ls -la src/" |}.
Proof.
  assert (Hc : word (lit "/SH")) by (split; [discriminate | reflexivity]).
  assert (Hws : Forall word [lit "ls"; lit "-la"; lit "src/"])
    by (repeat constructor; discriminate).
  split; [exact Hc |]. split; [exact Hws |].
  exact (@parseCommand_words (lit "/SH") [lit "ls"; lit "-la"; lit "src/"] Hc Hws).
Defined.

Lemma span_until q inner rest :
  ~ In q inner ->
  Extractor.span (fun c => negb (Ascii.eqb c q)) (inner ++ q :: rest) = (inner, q :: rest).
Proof.
  intros Hno. apply span_app.
  - apply forallb_forall. intros c Hc. apply negb_true_iff, Ascii.eqb_neq.
    intros ->. contradiction.
  - now rewrite Ascii.eqb_refl.
Qed.

(** An argument in quotes is passed without its quotes and keeps the spaces
    inside it: a word, a space and a quoted stretch (double or single quotes,
    the stretch free of that quote) parse into the command and that one
    argument. *)
Theorem parseCommand_quoted cmd q inner :
  word cmd -> is_quote q = true -> ~ In q inner ->
  parseCommand (cmd ++ " "%char :: q :: inner ++ [q]) =
    {| command := resolveCommand cmd; args := [inner];
       raw := cmd ++ " "%char :: q :: inner ++ [q] |}.
Proof.
  intros Hc Hq Hno.
  assert (Hsp : is_space q = false).
  { unfold is_quote in Hq. apply orb_prop in Hq as [H | H];
      apply Ascii.eqb_eq in H; subst q; reflexivity. }
  destruct (word_head Hc) as (c & cmd' & Ec & Hpc).
  assert (Htrim : trim (cmd ++ " "%char :: q :: inner ++ [q])
                  = cmd ++ " "%char :: q :: inner ++ [q]).
  { rewrite Ec. cbn [app].
    replace (cmd' ++ " "%char :: q :: inner ++ [q])
      with ((cmd' ++ " "%char :: q :: inner) ++ [q])
      by (rewrite <- app_assoc; reflexivity).
    apply trim_fixed; [now apply plain_not_space | exact Hsp]. }
  assert (Hpiece : piece (q :: inner ++ [q]) = Some (q :: inner ++ [q], [])).
  { cbn [piece]. unfold is_plain. rewrite Hq, andb_false_r.
    now rewrite (@span_until q inner [] Hno). }
  assert (Hm : match_all (length (cmd ++ " "%char :: q :: inner ++ [q]))
                         (cmd ++ " "%char :: q :: inner ++ [q])
               = [cmd; q :: inner ++ [q]]).
  { rewrite length_app, Ec. cbn [length Nat.add]. rewrite <- Ec.
    rewrite (@match_all_word _ cmd (" "%char :: q :: inner ++ [q]) Hc)
      by (right; eauto).
    f_equal. rewrite Nat.add_succ_r, match_all_space.
    rewrite Nat.add_succ_r.
    rewrite (@match_all_token _ q (inner ++ [q]) (q :: inner ++ [q]) []).
    - now rewrite match_all_nil.
    - apply token_single; [exact Hpiece | now left]. }
  unfold parseCommand. rewrite Htrim, Hm. cbn [map hd tl].
  rewrite (unquote_word Hc). f_equal. f_equal.
  unfold unquote, endsWith. cbn [tl].
  replace (rev (q :: inner ++ [q])) with (q :: rev inner ++ [q])
    by (cbn [rev]; now rewrite rev_app_distr).
  unfold is_quote in Hq. apply orb_prop in Hq as [H | H];
    apply Ascii.eqb_eq in H; subst q; cbn; apply removelast_last.
Qed.

Lemma parseCommand_quoted_witness :
  word (lit "/cat") /\ is_quote dq = true /\ ~ In dq (lit "my notes.txt") /\
  parseCommand (quoted "/cat 'my notes.txt'") =
    {| command := Name (lit "/cat"); args := [lit "my notes.txt"];
       raw := quoted "/cat 'my notes.txt'" |}.
Proof.
  assert (Hc : word (lit "/cat")) by (split; [discriminate | reflexivity]).
  assert (Hno : ~ In dq (lit "my notes.txt"))
    by (cbn; intros H; repeat (destruct H as [H | H]; [discriminate |]); exact H).
  split; [exact Hc |]. split; [reflexivity |]. split; [exact Hno |].
  exact (@parseCommand_quoted (lit "/cat") dq (lit "my notes.txt") Hc eq_refl Hno).
Defined.

(** Every command of the registry is reached under its own name, in any
    capitalisation: a spelling whose lower case is the name resolves to the
    name. *)
Theorem registry_names_resolve info c :
  In info commandRegistry -> toLowerCase c = name info ->
  resolveCommand c = Name (name info).
Proof.
  intros Hin Hc. unfold resolveCommand. rewrite Hc.
  assert (H : Forall (fun i =>
                match own (name i) commandAliases with
                | Some command => Name command
                | None =>
                    if str_eqb (name i) (lit "constructor") || str_eqb (name i) (lit "__proto__")
                    then Inherited (name i) else Name (name i)
                end = Name (name i)) commandRegistry)
    by (repeat constructor).
  rewrite Forall_forall in H. now apply H.
Qed.

Lemma registry_names_resolve_witness :
  let info := nth 12 commandRegistry
                {| name := []; aliases := []; description := []; usage := [];
                   category := other |} in
  In info commandRegistry /\ toLowerCase (lit "/Clear") = name info /\
  resolveCommand (lit "/Clear") = Name (lit "/clear").
Proof.
  intros info.
  assert (Hin : In info commandRegistry) by (cbn; tauto).
  split; [exact Hin |]. split; [reflexivity |].
  exact (@registry_names_resolve info (lit "/Clear") Hin eq_refl).
Defined.

End CommandLine.

(** ** Turns and retries *)

Section Turns.

Import Extractor Handler.

(** A turn that completes with a non-empty reply: the log gains the full
    message and the reply, the counter goes up by one, the chunks were all
    written to the terminal, and every pending file, old or new, is handed to
    [processPendingFiles], which leaves none pending. *)
Theorem sendMessage_commits P structure st message chunks :
  nonempty (concat chunks) = true ->
  let r := sendMessage P structure st message chunks None in
  rethrown r = None /\ written r = chunks /\
  map (fun m => (role m, content m)) (conversationHistory (agent (session r))) =
    map (fun m => (role m, content m)) (conversationHistory (agent st))
      ++ [ (user, fullMessage structure st message); (assistant, concat chunks) ] /\
  conversationCount (session r) = S (conversationCount st) /\
  isFirstMessage (session r) = false /\
  offered r = pendingFiles st ++ extract P (currentDir st) chunks /\
  pendingFiles (session r) = [].
Proof.
  intros Hne r. subst r. unfold sendMessage. rewrite !sendStream_yielded.
  unfold sendStream, sendStream_begin. rewrite sendStream_loop_spec.
  cbn [thrown agent_after]. unfold sendStream_finally, sendStream_end.
  cbn [success fullResponse userMsg conversationHistory fresh andb app].
  rewrite Hne. cbn [session rethrown written agent conversationCount isFirstMessage
                    offered pendingFiles conversationHistory].
  unfold extract, flush. cbn [fst app].
  repeat split.
  - unfold push. rewrite <- app_assoc, map_app. reflexivity.
  - now destruct (pendingFiles st ++ _).
  - now destruct (pendingFiles st ++ _).
Qed.

Lemma sendMessage_commits_witness :
  let st := {| agent := Agent.new; pendingFiles := []; isFirstMessage := true;
               conversationCount := 0; currentDir := lit "/w" |} in
  let chunks := [lit "```py:a.py" ++ [nl]; lit "x = 1" ++ nl :: lit "```"] in
  let r := sendMessage posix (lit "w/") st (lit "write a.py") chunks None in
  nonempty (concat chunks) = true /\
  conversationCount (session r) = 1 /\
  map named (offered r) = [ (lit "a.py", lit "x = 1") ] /\
  pendingFiles (session r) = [].
Proof.
  intros st chunks r. split; [reflexivity |].
  destruct (@sendMessage_commits posix (lit "w/") st (lit "write a.py") chunks eq_refl)
    as (_ & _ & _ & Hc & _ & Ho & Hp).
  split; [exact Hc |]. split; [| exact Hp].
  apply (eq_trans (f_equal (map named) Ho)). reflexivity.
Defined.

(** A turn that fails leaves the log and the counter as they were, although
    the chunks received were written to the terminal; and the message no
    longer counts as the first one, so the project structure is not sent
    again with the next message. *)
Theorem sendMessage_failure_keeps_log P structure st message chunks e :
  allocated (agent st) ->
  let r := sendMessage P structure st message chunks (Some e) in
  rethrown r = Some e /\ written r = chunks /\
  conversationHistory (agent (session r)) = conversationHistory (agent st) /\
  conversationCount (session r) = conversationCount st /\
  isFirstMessage (session r) = false /\
  offered r = [].
Proof.
  intros Hal r. subst r.
  pose proof (@sendStream_history (agent st) (fullMessage structure st message)
                chunks (Threw e) Hal) as Hh. cbv zeta in Hh.
  unfold sendMessage. rewrite !sendStream_yielded.
  assert (Ht : thrown (sendStream (agent st) (fullMessage structure st message)
                         chunks (Threw e)) = Some e).
  { unfold sendStream, sendStream_begin. now rewrite sendStream_loop_spec. }
  rewrite Ht. cbn [session rethrown written agent conversationCount isFirstMessage offered].
  repeat split. exact Hh.
Qed.

Lemma sendMessage_failure_keeps_log_witness :
  let st := {| agent := Agent.new; pendingFiles := []; isFirstMessage := true;
               conversationCount := 0; currentDir := lit "/w" |} in
  let e := Error (lit "API Error (500): down") in
  let r := sendMessage posix (lit "w/") st (lit "hello") [lit "Hel"] (Some e) in
  allocated (agent st) /\
  conversationHistory (agent (session r)) = conversationHistory Agent.new /\
  written r = [lit "Hel"] /\ isFirstMessage (session r) = false.
Proof.
  intros st e r.
  assert (Hal : allocated (agent st)) by (unfold allocated; simpl; repeat constructor).
  split; [exact Hal |].
  destruct (@sendMessage_failure_keeps_log posix (lit "w/") st (lit "hello") [lit "Hel"] e Hal)
    as (_ & Hw & Hh & _ & Hf & _).
  split; [exact Hh |]. split; [exact Hw | exact Hf].
Defined.

(** [/retry] starts over: whatever the log held, after the command it holds
    the system prompt without any addition, then, unless the turn failed, the
    last message sent again as a first message (with the project structure),
    then the reply if there is one.  The conversation before the retry is
    gone even when the retried turn fails. *)
Theorem retry_starts_over P structure st ag chunks failure :
  Repl.agent st = Some ag ->
  nonempty (Repl.lastUserMessage st) = true ->
  let full := lit "Project structure:" ++ nl :: structure ++ nl :: nl ::
              lit "Help me code. Use ```lang:filename.ext for files." ++ nl :: nl ::
              lit "User request: " ++ Repl.lastUserMessage st in
  exists ag',
    Repl.agent (fst (Repl.retry P structure st chunks failure)) = Some ag' /\
    map (fun m => (role m, content m)) (conversationHistory ag') =
      (system, SYSTEM_PROMPT) ::
      match failure with
      | Some _ => []
      | None => if nonempty (concat chunks)
                then [ (user, full); (assistant, concat chunks) ]
                else [ (user, full) ]
      end.
Proof.
  intros Hag Hlast full. unfold Repl.retry. rewrite Hag, Hlast. cbn [negb fst Repl.agent].
  eexists. split; [reflexivity |].
  assert (Hal : allocated (clearHistory ag))
    by (unfold allocated, clearHistory; cbn; repeat constructor).
  set (session := {| agent := clearHistory ag |}).
  unfold sendMessage. cbn [agent session].
  change (fullMessage structure session (Repl.lastUserMessage st)) with full.
  pose proof (@sendStream_history (clearHistory ag) full chunks
                (match failure with Some e => Threw e | None => Completed end) Hal) as Hh.
  cbv zeta in Hh.
  assert (Ht : thrown (sendStream (clearHistory ag) full chunks
                         (match failure with Some e => Threw e | None => Completed end))
               = failure).
  { unfold sendStream, sendStream_begin. rewrite sendStream_loop_spec. now destruct failure. }
  rewrite Ht. destruct failure as [e |]; cbn [Handler.session agent]; rewrite Hh.
  - reflexivity.
  - destruct (nonempty (concat chunks)); reflexivity.
Qed.

Lemma retry_starts_over_witness :
  let ag := run [OpSend (lit "one") (inr (lit "1")); OpUpdateSystemPrompt (lit "Be brief.");
                 OpSendStream (lit "two") [] (Threw (Error (lit "API Error (500): down")))] in
  let st := {| Repl.agent := Some ag; Repl.pendingFiles := []; Repl.isFirstMessage := false;
               Repl.conversationCount := 1; Repl.currentDir := lit "/w";
               Repl.lastUserMessage := lit "two" |} in
  Repl.agent st = Some ag /\ nonempty (Repl.lastUserMessage st) = true /\
  length (conversationHistory ag) = 3 /\
  exists ag',
    Repl.agent (fst (Repl.retry posix (lit "w/") st [lit "2"] None)) = Some ag' /\
    map role (conversationHistory ag') = [system; user; assistant].
Proof.
  intros ag st. split; [reflexivity |]. split; [reflexivity |]. split; [reflexivity |].
  destruct (@retry_starts_over posix (lit "w/") st ag [lit "2"] None eq_refl eq_refl)
    as (ag' & Hag & Hh).
  exists ag'. split; [exact Hag |].
  apply (f_equal (map fst)) in Hh. rewrite map_map in Hh. exact Hh.
Defined.

End Turns.
